(** * Arithmetic expressions reaching a target

    A verification development for
    [codebase/crazy-hard-problems/P1-arithmetic-expression-target.cpp]:
    the expression tree ([ASTNode], [NumberNode], [OperatorNode]), the
    enumerator [generateExpressions], its filtering overload and the driver
    [findExpressions], first on trees, then on a store of objects held
    through pointers, with [new], the destructor and [main]. *)

From Stdlib Require Import ZArith String Ascii Bool Lia List.
From Stdlib Require Import Decimal DecimalString DecimalZ.
Import ListNotations.

#[local] Open Scope Z_scope.

(** ** The C++ [int]

    [int] is the 32-bit two's complement integer.  A value is a [Z] inside
    [[INT_MIN, INT_MAX]]; a sum, a difference or a product is brought back
    into that interval by [wrap] (the C++ standard leaves a signed overflow
    undefined; the embedding takes the two's complement result of the
    machine instruction).  A division has no such result: when the quotient
    is no [int] the instruction faults. *)

Module Int.

Definition INT_MAX : Z := 2147483647.
Definition INT_MIN : Z := -2147483648.
Definition modulus : Z := 4294967296.

Definition wrap (z : Z) : Z := (z - INT_MIN) mod modulus + INT_MIN.

Definition in_range (z : Z) : Prop := INT_MIN <= z <= INT_MAX.

Definition add (a b : Z) : Z := wrap (a + b).
Definition sub (a b : Z) : Z := wrap (a - b).
Definition mul (a b : Z) : Z := wrap (a * b).
(** [a / b] of C++, for [b <> 0]: the quotient truncated toward zero.
    [INT_MIN / -1] has the quotient [2147483648], which is no [int]: the
    division is undefined and the program is killed by the processor's
    divide error; [div] has no value there. *)
Definition div (a b : Z) : option Z :=
  let q := Z.quot a b in
  if (INT_MIN <=? q) && (q <=? INT_MAX) then Some q else None.

End Int.

(** ** Outcomes of a call

    A call returns a value, or it does not: [evaluate] throws
    [invalid_argument]; a division whose quotient is no [int] kills the
    program; [nums[k]] with [k] outside the vector is an unchecked read,
    after which C++ defines nothing: the embedding stops there and no
    statement below says what the program does from then on; and the
    recursion of the embedding is bounded by a fuel. *)

Inductive failure : Type :=
| InvalidArgument   (* throw invalid_argument("Invalid operator") *)
| DivideError       (* INT_MIN / -1: undefined, the program is killed *)
| OutOfBounds       (* nums[k] with k outside 0 .. size-1: undefined from here *)
| OutOfFuel.        (* recursion bound of the embedding reached *)

Inductive outcome (A : Type) : Type :=
| Ok (a : A)
| Fail (f : failure).

Arguments Ok {A} a.
Arguments Fail {A} f.

Definition bind {A B : Type} (c : outcome A) (k : A -> outcome B) : outcome B :=
  match c with
  | Ok a => k a
  | Fail f => Fail f
  end.

Notation "x <- c ;; k" := (bind c (fun x => k))
  (at level 61, c at next level, right associativity).

(** ** The expression tree *)

(** [const char OPERATORS[] = {'+', '-', '*', '/'}] *)
Definition OPERATORS : list ascii := ["+"; "-"; "*"; "/"]%char.

(** [NumberNode] holds [value]; [OperatorNode] holds [oper], [left] and
    [right].  Nodes are never modified or deleted once built (the only
    [delete] of a root is commented out), so the sharing of children between
    parents cannot be observed and a node is its tree. *)
Inductive ASTNode : Type :=
| NumberNode (value : Z)
| OperatorNode (oper : ascii) (left_ right_ : ASTNode).

(** [int evaluate()].  Both children are evaluated before the [switch]; a
    child that throws or is killed ends the evaluation. *)
Fixpoint evaluate (n : ASTNode) : outcome Z :=
  match n with
  | NumberNode value => Ok value
  | OperatorNode oper left_ right_ =>
      leftVal <- evaluate left_ ;;
      rightVal <- evaluate right_ ;;
      if (oper =? "+")%char then Ok (Int.add leftVal rightVal)
      else if (oper =? "-")%char then Ok (Int.sub leftVal rightVal)
      else if (oper =? "*")%char then Ok (Int.mul leftVal rightVal)
      else if (oper =? "/")%char then
        if negb (rightVal =? 0) then
          match Int.div leftVal rightVal with
          | Some quotient => Ok quotient
          | None => Fail DivideError
          end
        else Ok Int.INT_MAX
      else Fail InvalidArgument
  end.

(** [std::to_string(int)]: the decimal digits, after a ['-'] for a negative
    value. *)
Definition to_string (value : Z) : string :=
  NilZero.string_of_int (Z.to_int value).

(** [string toString()]; the concatenations associate to the left, as
    [operator+] does. *)
Fixpoint toString (n : ASTNode) : string :=
  match n with
  | NumberNode value => to_string value
  | OperatorNode oper left_ right_ =>
      (((("(" ++ toString left_) ++ String oper "") ++ toString right_) ++ ")")%string
  end.

(** ** The enumerator *)

Definition push_back {A : Type} (v : list A) (x : A) : list A := v ++ [x].

(** [nums[k]].  The read is unchecked in C++: with [k] outside the vector
    nothing is defined from there on, and the embedding stops with
    [OutOfBounds] instead of following the program. *)
Definition subscript (nums : list Z) (k : Z) : outcome Z :=
  if (0 <=? k) && (k <? Z.of_nat (length nums))
  then match nth_error nums (Z.to_nat k) with
       | Some v => Ok v
       | None => Fail OutOfBounds
       end
  else Fail OutOfBounds.

(** The three nested [for] loops over [leftExpressions], [rightExpressions]
    and [OPERATORS], each pushing onto [result]. *)
Definition for_operators (left_ right_ : ASTNode) (result : list ASTNode)
  : list ASTNode :=
  fold_left (fun result oper => push_back result (OperatorNode oper left_ right_))
            OPERATORS result.

Definition for_right (left_ : ASTNode) (rightExpressions : list ASTNode)
    (result : list ASTNode) : list ASTNode :=
  fold_left (fun result right_ => for_operators left_ right_ result)
            rightExpressions result.

Definition for_left (leftExpressions rightExpressions : list ASTNode)
    (result : list ASTNode) : list ASTNode :=
  fold_left (fun result left_ => for_right left_ rightExpressions result)
            leftExpressions result.

(** [for (int i = start; i < end; i++)], entered with [i] and [trips]
    iterations to go; [gen] is the recursive call. *)
Fixpoint for_split (gen : Z -> Z -> outcome (list ASTNode))
    (start end_ : Z) (i : Z) (trips : nat) (result : list ASTNode)
  : outcome (list ASTNode) :=
  match trips with
  | O => Ok result
  | S trips' =>
      leftExpressions <- gen start i ;;
      rightExpressions <- gen (i + 1) end_ ;;
      for_split gen start end_ (i + 1) trips'
                (for_left leftExpressions rightExpressions result)
  end.

(** [generateExpressions(nums, start, end)], with a bound on the depth of
    the recursion. *)
Fixpoint generate_fuel (fuel : nat) (nums : list Z) (start end_ : Z)
  : outcome (list ASTNode) :=
  match fuel with
  | O => Fail OutOfFuel
  | S fuel' =>
      if start =? end_ then
        value <- subscript nums start ;;
        Ok (push_back [] (NumberNode value))
      else
        for_split (generate_fuel fuel' nums) start end_
                  start (Z.to_nat (end_ - start)) []
  end.

(** The depth of the recursion on [[start, end]] is at most
    [end - start + 1] ([generate_fuel_enough] below). *)
Definition generateExpressions (nums : list Z) (start end_ : Z)
  : outcome (list ASTNode) :=
  generate_fuel (S (Z.to_nat (end_ - start))) nums start end_.

(** The loop of the filtering overload. *)
Fixpoint for_expression (expressions : list ASTNode) (target : Z)
    (result : list string) : outcome (list string) :=
  match expressions with
  | [] => Ok result
  | expression :: rest =>
      v <- evaluate expression ;;
      for_expression rest target
        (if v =? target then push_back result (toString expression) else result)
  end.

(** [generateExpressions(nums, start, end, target, result)] *)
Definition generateExpressions_target (nums : list Z) (start end_ : Z)
    (target : Z) (result : list string) : outcome (list string) :=
  expressions <- generateExpressions nums start end_ ;;
  for_expression expressions target result.

(** [nums.size() - 1] as the [int] argument [end]: the subtraction is done
    in [size_t] and the result converted to [int], which keeps it modulo
    [2^32]: [-1] for the empty vector, the last index up to [2^31] elements,
    and a wrapped value beyond. *)
Definition last_index (nums : list Z) : Z :=
  Int.wrap (Z.of_nat (length nums) - 1).

(** [nums.size() - 1] is an [int]: the vector has at most [2^31] elements. *)
Definition size_fits (nums : list Z) : Prop :=
  Z.of_nat (length nums) - 1 <= Int.INT_MAX.

(** [findExpressions(nums, target)] *)
Definition findExpressions (nums : list Z) (target : Z) : outcome (list string) :=
  generateExpressions_target nums 0 (last_index nums) target [].

(** ** Notions used in the statements *)

(** The literals of a tree, left to right. *)
Fixpoint leaves (n : ASTNode) : list Z :=
  match n with
  | NumberNode value => [value]
  | OperatorNode _ left_ right_ => leaves left_ ++ leaves right_
  end.

(** Every operator of the tree is one of [OPERATORS]. *)
Fixpoint operators_fixed (n : ASTNode) : Prop :=
  match n with
  | NumberNode _ => True
  | OperatorNode oper left_ right_ =>
      In oper OPERATORS /\ operators_fixed left_ /\ operators_fixed right_
  end.

(** Every literal of the tree is an [int]. *)
Fixpoint literals_int (n : ASTNode) : Prop :=
  match n with
  | NumberNode value => Int.in_range value
  | OperatorNode _ left_ right_ => literals_int left_ /\ literals_int right_
  end.

(** [0 <= start <= end < nums.size()] *)
Definition valid_range (nums : list Z) (start end_ : Z) : Prop :=
  0 <= start /\ start <= end_ /\ end_ < Z.of_nat (length nums).

(** The elements of [nums] at the indices [start .. end]. *)
Definition slice (nums : list Z) (start end_ : Z) : list Z :=
  firstn (Z.to_nat (end_ - start + 1)) (skipn (Z.to_nat start) nums).

(** The trees a call returned; none when it failed. *)
Definition trees_of (o : outcome (list ASTNode)) : list ASTNode :=
  match o with
  | Ok l => l
  | Fail _ => []
  end.

(** The split indices [i, i+1, ...], [trips] of them. *)
Definition splits (i : Z) (trips : nat) : list Z :=
  map (fun k => i + Z.of_nat k) (seq 0 trips).

(** One operator node per operator, for a pair of children. *)
Definition per_operator (left_ right_ : ASTNode) : list ASTNode :=
  map (fun oper => OperatorNode oper left_ right_) ["+"; "-"; "*"; "/"]%char.

(** Left trees outermost, right trees nested inside, operators innermost. *)
Definition per_pair (lefts rights : list ASTNode) : list ASTNode :=
  flat_map (fun left_ => flat_map (fun right_ => per_operator left_ right_) rights)
           lefts.

(** The order of enumeration in the words of the design: split index
    ascending from [start] to [end - 1], and [per_pair] within a split. *)
Definition enumeration_order (gen : Z -> Z -> outcome (list ASTNode))
    (start end_ : Z) : list ASTNode :=
  flat_map (fun i => per_pair (trees_of (gen start i)) (trees_of (gen (i + 1) end_)))
           (splits start (Z.to_nat (end_ - start))).

(** Whether a tree evaluates to [target]: the test of the filtering loop. *)
Definition reaches (target : Z) (n : ASTNode) : bool :=
  match evaluate n with
  | Ok v => v =? target
  | Fail _ => false
  end.

(** The number of trees of a range. *)
Definition count (nums : list Z) (start end_ : Z) : nat :=
  length (trees_of (generateExpressions nums start end_)).

(** The value a decimal numeral denotes: an optional ['-'], then digits. *)
Definition of_string (s : string) : option Z :=
  option_map Z.of_int (NilZero.int_of_string s).

(** The characters an expression is written with. *)
Definition digit_chars : list ascii := list_ascii_of_string "0123456789".

Definition expression_chars : list ascii :=
  digit_chars ++ list_ascii_of_string "-+*/()".

(** Whether a character is a decimal digit, and whether a string begins
    with one. *)
Definition is_digit (c : ascii) : bool := existsb (Ascii.eqb c) digit_chars.

Definition starts_with_digit (s : string) : bool :=
  match s with
  | EmptyString => false
  | String c _ => is_digit c
  end.

(** The Catalan numbers by their recurrence
    [C(0) = 1], [C(m+1) = C(0) C(m) + C(1) C(m-1) + ... + C(m) C(0)];
    [fuel] bounds the depth of the recursion. *)
Fixpoint catalan_fuel (fuel n : nat) : nat :=
  match fuel with
  | O => 0%nat
  | S fuel' =>
      match n with
      | O => 1%nat
      | S m =>
          list_sum (map (fun j => (catalan_fuel fuel' j * catalan_fuel fuel' (m - j))%nat)
                        (seq 0 n))
      end
  end.

Definition catalan (n : nat) : nat := catalan_fuel (S n) n.

(** An integer that is an [int]. *)
Definition fits (z : Z) : option Z :=
  if (Int.INT_MIN <=? z) && (z <=? Int.INT_MAX) then Some z else None.

(** The value of an expression in the integers, where C++ defines it: every
    literal and every intermediate result is an [int], no divisor is zero
    and every operator is one of [+ - * /]. *)
Fixpoint exact_value (n : ASTNode) : option Z :=
  match n with
  | NumberNode value => fits value
  | OperatorNode oper left_ right_ =>
      match exact_value left_, exact_value right_ with
      | Some a, Some b =>
          if (oper =? "+")%char then fits (a + b)
          else if (oper =? "-")%char then fits (a - b)
          else if (oper =? "*")%char then fits (a * b)
          else if (oper =? "/")%char then
            (if b =? 0 then None else fits (Z.quot a b))
          else None
      | _, _ => None
      end
  end.

(** ** The free store

    The nodes are objects created by [new] and held through pointers; a
    child is the pointer that was passed to the constructor, so several
    parents may hold the same child.  The store lists the objects in their
    order of creation; a pointer is a position in it, and a deleted object
    leaves [None] at its position. *)

Definition ptr : Type := nat.

Inductive object : Type :=
| NumberObject (value : Z)
| OperatorObject (oper : ascii) (left_ right_ : ptr).

Definition store : Type := list (option object).

(** [new T(...)] *)
Definition new (o : object) (h : store) : ptr * store :=
  (length h, h ++ [Some o]).

(** The three inner loops, each [push_back] taking a [new OperatorNode]. *)
Definition new_operators (left_ right_ : ptr) (st : list ptr * store)
  : list ptr * store :=
  fold_left (fun st oper =>
               let (p, h) := new (OperatorObject oper left_ right_) (snd st) in
               (push_back (fst st) p, h))
            OPERATORS st.

Definition new_right (left_ : ptr) (rightExpressions : list ptr)
    (st : list ptr * store) : list ptr * store :=
  fold_left (fun st right_ => new_operators left_ right_ st) rightExpressions st.

Definition new_left (leftExpressions rightExpressions : list ptr)
    (st : list ptr * store) : list ptr * store :=
  fold_left (fun st left_ => new_right left_ rightExpressions st)
            leftExpressions st.

(** The loop over the split index, on the store. *)
Fixpoint store_split (gen : Z -> Z -> store -> outcome (list ptr * store))
    (start end_ : Z) (i : Z) (trips : nat) (st : list ptr * store)
  : outcome (list ptr * store) :=
  match trips with
  | O => Ok st
  | S trips' =>
      l <- gen start i (snd st) ;;
      r <- gen (i + 1) end_ (snd l) ;;
      store_split gen start end_ (i + 1) trips'
                  (new_left (fst l) (fst r) (fst st, snd r))
  end.

(** [generateExpressions(nums, start, end)] on the store: the vector of
    pointers it returns and the store it leaves. *)
Fixpoint store_generate_fuel (fuel : nat) (nums : list Z) (start end_ : Z)
    (h : store) : outcome (list ptr * store) :=
  match fuel with
  | O => Fail OutOfFuel
  | S fuel' =>
      if start =? end_ then
        value <- subscript nums start ;;
        let (p, h') := new (NumberObject value) h in
        Ok (push_back [] p, h')
      else
        store_split (store_generate_fuel fuel' nums) start end_
                    start (Z.to_nat (end_ - start)) ([], h)
  end.

Definition generateExpressions_store (nums : list Z) (start end_ : Z)
    (h : store) : outcome (list ptr * store) :=
  store_generate_fuel (S (Z.to_nat (end_ - start))) nums start end_ h.

(** What a [delete] expression comes to. *)
Inductive deletion : Type :=
| Deleted (h : store)       (* the store after the delete *)
| DeletedTwice (p : ptr)    (* [p] holds no object (any more): undefined in C++ *)
| TooDeep.                  (* recursion bound of the embedding reached *)

(** The storage of the object at [p] is released. *)
Definition release (p : ptr) (h : store) : store :=
  firstn p h ++ None :: skipn (S p) h.

(** [delete p]: the destructor of the object runs ([~OperatorNode] deletes
    [left], then [right]; a [NumberNode] has nothing to do), then its storage
    is released. *)
Fixpoint delete_fuel (fuel : nat) (h : store) (p : ptr) : deletion :=
  match fuel with
  | O => TooDeep
  | S fuel' =>
      match nth_error h p with
      | Some (Some (NumberObject _)) => Deleted (release p h)
      | Some (Some (OperatorObject _ left_ right_)) =>
          match delete_fuel fuel' h left_ with
          | Deleted h1 =>
              match delete_fuel fuel' h1 right_ with
              | Deleted h2 => Deleted (release p h2)
              | failed => failed
              end
          | failed => failed
          end
      | _ => DeletedTwice p
      end
  end.

(** A chain of children is shorter than the store whenever children were
    created before their parents. *)
Definition delete (h : store) (p : ptr) : deletion :=
  delete_fuel (length h) h p.

(** The pointer [p] stands for the tree [t] in the store [h]: the objects of
    the tree are in the store, at positions from [lo] up to [p], those of the
    left subtree before those of the right subtree and both before [p]. *)
Fixpoint shaped (h : store) (lo hi : nat) (p : ptr) (t : ASTNode) : Prop :=
  match t with
  | NumberNode value =>
      (lo <= p < hi)%nat /\ nth_error h p = Some (Some (NumberObject value))
  | OperatorNode oper tl tr =>
      exists l r mid,
        nth_error h p = Some (Some (OperatorObject oper l r))
        /\ (lo <= mid <= p)%nat /\ (p < hi)%nat
        /\ shaped h lo mid l tl /\ shaped h mid p r tr
  end.

(** The store call does what the call on trees does: it fails the same way,
    or it returns pointers that stand for the trees, in their order, having
    added objects at the end of the store and touched nothing else. *)
Definition refines (h : store) (trees : outcome (list ASTNode))
    (st : outcome (list ptr * store)) : Prop :=
  match trees with
  | Ok ts =>
      exists ptrs objs,
        st = Ok (ptrs, h ++ objs)
        /\ Forall2 (shaped (h ++ objs) (length h) (length h + length objs)) ptrs ts
  | Fail f => st = Fail f
  end.

(** The objects of the store that have not been deleted. *)
Definition live (h : store) : nat :=
  length (filter (fun c => match c with Some _ => true | None => false end) h).

(** The number of nodes of a tree. *)
Fixpoint nodes (t : ASTNode) : nat :=
  match t with
  | NumberNode _ => 1%nat
  | OperatorNode _ tl tr => S (nodes tl + nodes tr)
  end.

(** The objects the three inner loops create, in their order. *)
Definition operator_objects (l r : ptr) : list (option object) :=
  map (fun oper => Some (OperatorObject oper l r)) OPERATORS.

Definition pair_objects (lefts rights : list ptr) : list (option object) :=
  flat_map (fun l => flat_map (fun r => operator_objects l r) rights) lefts.

(** The object [o], created in the store [h], makes the tree [t]: an
    operator object over two children that stand for the subtrees of [t], the
    left one before the right one. *)
Definition builds (h : store) (base : nat) (o : option object) (t : ASTNode)
  : Prop :=
  exists oper l r tl tr a b c,
    o = Some (OperatorObject oper l r) /\ t = OperatorNode oper tl tr
    /\ (base <= a)%nat /\ (c <= length h)%nat
    /\ shaped h a b l tl /\ shaped h b c r tr.

(** An object that has not been deleted. *)
Definition alive (c : option object) : Prop := c <> None.

(** The [switch] of [evaluate], on the values of the children. *)
Definition apply_operator (oper : ascii) (leftVal rightVal : Z) : outcome Z :=
  if (oper =? "+")%char then Ok (Int.add leftVal rightVal)
  else if (oper =? "-")%char then Ok (Int.sub leftVal rightVal)
  else if (oper =? "*")%char then Ok (Int.mul leftVal rightVal)
  else if (oper =? "/")%char then
    if negb (rightVal =? 0) then
      match Int.div leftVal rightVal with
      | Some quotient => Ok quotient
      | None => Fail DivideError
      end
    else Ok Int.INT_MAX
  else Fail InvalidArgument.

(** [p->evaluate()]: the virtual call goes to the object at [p]; [None] when
    a pointer holds no object (undefined in C++) or the bound is reached. *)
Fixpoint evaluate_at (fuel : nat) (h : store) (p : ptr) : option (outcome Z) :=
  match fuel with
  | O => None
  | S fuel' =>
      match nth_error h p with
      | Some (Some (NumberObject value)) => Some (Ok value)
      | Some (Some (OperatorObject oper left_ right_)) =>
          match evaluate_at fuel' h left_ with
          | Some (Ok leftVal) =>
              match evaluate_at fuel' h right_ with
              | Some (Ok rightVal) => Some (apply_operator oper leftVal rightVal)
              | other => other
              end
          | other => other
          end
      | _ => None
      end
  end.

(** [p->toString()] *)
Fixpoint toString_at (fuel : nat) (h : store) (p : ptr) : option string :=
  match fuel with
  | O => None
  | S fuel' =>
      match nth_error h p with
      | Some (Some (NumberObject value)) => Some (to_string value)
      | Some (Some (OperatorObject oper left_ right_)) =>
          match toString_at fuel' h left_, toString_at fuel' h right_ with
          | Some sl, Some sr =>
              Some (((("(" ++ sl) ++ String oper "") ++ sr) ++ ")")%string
          | _, _ => None
          end
      | _ => None
      end
  end.

(** The loop of the filtering overload over the pointers; the commented
    [delete expression] is not run, so the store stays as it is. *)
Fixpoint for_expression_store (expressions : list ptr) (target : Z) (h : store)
    (result : list string) : option (outcome (list string)) :=
  match expressions with
  | [] => Some (Ok result)
  | expression :: rest =>
      match evaluate_at (length h) h expression with
      | Some (Ok v) =>
          if v =? target then
            match toString_at (length h) h expression with
            | Some s => for_expression_store rest target h (push_back result s)
            | None => None
            end
          else for_expression_store rest target h result
      | Some (Fail f) => Some (Fail f)
      | None => None
      end
  end.

(** [findExpressions(nums, target)] run from the store [h]: the strings it
    returns and the store it leaves behind. *)
Definition findExpressions_store (nums : list Z) (target : Z) (h : store)
  : option (outcome (list string * store)) :=
  match generateExpressions_store nums 0 (last_index nums) h with
  | Ok (expressions, h') =>
      match for_expression_store expressions target h' [] with
      | Some (Ok result) => Some (Ok (result, h'))
      | Some (Fail f) => Some (Fail f)
      | None => None
      end
  | Fail f => Some (Fail f)
  end.

(** ** [main] *)

(** [endl]: a newline. *)
Definition endl : string := String "010" "".

(** [for (expr : expressions) cout << expr << endl]: what is written after
    [out]. *)
Definition cout_lines (expressions : list string) (out : string) : string :=
  fold_left (fun out expr => ((out ++ expr) ++ endl)%string) expressions out.

(** [main()]: what it writes, its return value and the store it leaves. *)
Definition main : option (outcome (string * Z * store)) :=
  match findExpressions_store [2; 3; 4] 20 [] with
  | Some (Ok (expressions, h)) => Some (Ok (cout_lines expressions "", 0, h))
  | Some (Fail f) => Some (Fail f)
  | None => None
  end.

(** * Properties *)

(** ** The [int] *)

Lemma wrap_in_range z : Int.in_range (Int.wrap z).
Proof.
  unfold Int.in_range, Int.wrap, Int.INT_MIN, Int.INT_MAX, Int.modulus.
  pose proof (Z.mod_pos_bound (z - -2147483648) 4294967296 ltac:(lia)). lia.
Qed.

Lemma wrap_id z : Int.in_range z -> Int.wrap z = z.
Proof.
  unfold Int.in_range, Int.wrap, Int.INT_MIN, Int.INT_MAX, Int.modulus.
  intros H. rewrite Z.mod_small by lia. lia.
Qed.

Lemma last_index_fits nums :
  size_fits nums -> last_index nums = Z.of_nat (length nums) - 1.
Proof.
  unfold size_fits, last_index. intros H. apply wrap_id.
  unfold Int.in_range, Int.INT_MIN, Int.INT_MAX in *. lia.
Qed.

Lemma div_some a b q : Int.div a b = Some q -> q = Z.quot a b /\ Int.in_range q.
Proof.
  unfold Int.div, Int.in_range. intros H.
  destruct (Z.leb_spec Int.INT_MIN (Z.quot a b)),
    (Z.leb_spec (Z.quot a b) Int.INT_MAX); simpl in H; try discriminate H.
  injection H as <-. lia.
Qed.

Lemma div_in_range a b :
  Int.in_range (Z.quot a b) -> Int.div a b = Some (Z.quot a b).
Proof.
  unfold Int.div, Int.in_range. intros [H1 H2].
  apply Z.leb_le in H1, H2. now rewrite H1, H2.
Qed.

(** ** The three inner loops *)

Lemma for_operators_app left_ right_ result :
  for_operators left_ right_ result = result ++ per_operator left_ right_.
Proof.
  unfold for_operators, per_operator, push_back, OPERATORS. simpl.
  now rewrite <- !app_assoc.
Qed.

Lemma for_right_app left_ rights result :
  for_right left_ rights result
  = result ++ flat_map (fun right_ => per_operator left_ right_) rights.
Proof.
  unfold for_right. revert result.
  induction rights as [|r rights IH]; intros result; simpl.
  - now rewrite app_nil_r.
  - now rewrite IH, for_operators_app, <- app_assoc.
Qed.

Lemma for_left_app lefts rights result :
  for_left lefts rights result = result ++ per_pair lefts rights.
Proof.
  unfold for_left, per_pair. revert result.
  induction lefts as [|l lefts IH]; intros result; simpl.
  - now rewrite app_nil_r.
  - now rewrite IH, for_right_app, <- app_assoc.
Qed.

Lemma per_operator_length left_ right_ :
  length (per_operator left_ right_) = 4%nat.
Proof. reflexivity. Qed.

Lemma per_pair_length lefts rights :
  length (per_pair lefts rights) = (length lefts * length rights * 4)%nat.
Proof.
  unfold per_pair.
  induction lefts as [|l lefts IH]; simpl; [reflexivity|].
  rewrite length_app, IH.
  assert (H : length (flat_map (fun right_ => per_operator l right_) rights)
              = (length rights * 4)%nat).
  { clear. induction rights as [|r rights IH]; simpl; [reflexivity|].
    rewrite IH. lia. }
  rewrite H. lia.
Qed.

Lemma in_per_pair t lefts rights :
  In t (per_pair lefts rights) <->
  exists oper left_ right_,
    t = OperatorNode oper left_ right_ /\ In oper OPERATORS
    /\ In left_ lefts /\ In right_ rights.
Proof.
  unfold per_pair, per_operator. rewrite in_flat_map. split.
  - intros (l & Hl & H). apply in_flat_map in H. destruct H as (r & Hr & H).
    apply in_map_iff in H. destruct H as (oper & <- & Hop).
    now exists oper, l, r.
  - intros (oper & l & r & -> & Hop & Hl & Hr).
    exists l. split; [assumption|]. apply in_flat_map.
    exists r. split; [assumption|]. apply in_map_iff. now exists oper.
Qed.

(** ** The loop over the split index *)

Lemma splits_S i trips : splits i (S trips) = i :: splits (i + 1) trips.
Proof.
  unfold splits. simpl. rewrite Z.add_0_r. f_equal.
  rewrite <- seq_shift, map_map. apply map_ext. intros k. lia.
Qed.

Lemma in_splits j i trips :
  In j (splits i trips) <-> i <= j < i + Z.of_nat trips.
Proof.
  unfold splits. rewrite in_map_iff. split.
  - intros (k & <- & Hk). apply in_seq in Hk. lia.
  - intros Hj. exists (Z.to_nat (j - i)). split; [lia|]. apply in_seq. lia.
Qed.

(** The loop only looks at [gen] on the ranges of its own splits. *)
Lemma for_split_ext gen1 gen2 start end_ trips :
  forall i result,
    (forall j, In j (splits i trips) ->
       gen1 start j = gen2 start j /\ gen1 (j + 1) end_ = gen2 (j + 1) end_) ->
    for_split gen1 start end_ i trips result
    = for_split gen2 start end_ i trips result.
Proof.
  induction trips as [|trips IH]; intros i result H; simpl; [reflexivity|].
  rewrite splits_S in H.
  destruct (H i) as [Hl Hr]; [now left|]. rewrite Hl, Hr.
  destruct (gen2 start i) as [lefts|]; simpl; [|reflexivity].
  destruct (gen2 (i + 1) end_) as [rights|]; simpl; [|reflexivity].
  apply IH. intros j Hj. apply H. now right.
Qed.

(** When every recursive call returns, the loop appends the combinations
    split by split. *)
Lemma for_split_ok gen start end_ trips :
  forall i result,
    (forall j, In j (splits i trips) ->
       (exists l, gen start j = Ok l) /\ (exists r, gen (j + 1) end_ = Ok r)) ->
    for_split gen start end_ i trips result
    = Ok (result ++
          flat_map (fun j => per_pair (trees_of (gen start j))
                                      (trees_of (gen (j + 1) end_)))
                   (splits i trips)).
Proof.
  induction trips as [|trips IH]; intros i result H.
  - simpl. now rewrite app_nil_r.
  - rewrite splits_S in *. simpl.
    destruct (H i) as [[l Hl] [r Hr]]; [now left|]. rewrite Hl, Hr. simpl.
    rewrite IH by (intros j Hj; apply H; now right).
    now rewrite for_left_app, <- app_assoc.
Qed.

(** ** The fuel is enough *)

Lemma generate_fuel_irrelevant nums :
  forall fuel1 fuel2 start end_,
    (Z.to_nat (end_ - start) < fuel1)%nat ->
    (Z.to_nat (end_ - start) < fuel2)%nat ->
    generate_fuel fuel1 nums start end_ = generate_fuel fuel2 nums start end_.
Proof.
  induction fuel1 as [|fuel1 IH]; intros fuel2 start end_ H1 H2; [lia|].
  destruct fuel2 as [|fuel2]; [lia|]. simpl.
  destruct (start =? end_) eqn:E; [reflexivity|].
  apply for_split_ext. intros j Hj. apply in_splits in Hj.
  split; apply IH; lia.
Qed.

Lemma generate_fuel_enough nums fuel start end_ :
  (Z.to_nat (end_ - start) < fuel)%nat ->
  generate_fuel fuel nums start end_ = generateExpressions nums start end_.
Proof.
  intros H. unfold generateExpressions. apply generate_fuel_irrelevant; lia.
Qed.

(** The defining equation of the source function. *)
Lemma generateExpressions_eq nums start end_ :
  generateExpressions nums start end_
  = if start =? end_ then
      value <- subscript nums start ;; Ok [NumberNode value]
    else
      for_split (generateExpressions nums) start end_
                start (Z.to_nat (end_ - start)) [].
Proof.
  unfold generateExpressions at 1. simpl.
  destruct (start =? end_) eqn:E; [reflexivity|].
  apply for_split_ext. intros j Hj. apply in_splits in Hj.
  split; apply generate_fuel_enough; lia.
Qed.

Lemma subscript_valid nums k :
  0 <= k < Z.of_nat (length nums) ->
  subscript nums k = Ok (nth (Z.to_nat k) nums 0).
Proof.
  intros H. unfold subscript.
  replace ((0 <=? k) && (k <? Z.of_nat (length nums))) with true
    by (symmetry; apply andb_true_iff; split; [apply Z.leb_le | apply Z.ltb_lt]; lia).
  destruct (nth_error nums (Z.to_nat k)) as [v|] eqn:E.
  - now rewrite (nth_error_nth _ _ 0 E).
  - apply nth_error_None in E. lia.
Qed.

Lemma subscript_invalid nums k :
  k < 0 \/ Z.of_nat (length nums) <= k ->
  subscript nums k = Fail OutOfBounds.
Proof.
  intros H. unfold subscript.
  replace ((0 <=? k) && (k <? Z.of_nat (length nums))) with false; [reflexivity|].
  symmetry. apply andb_false_iff.
  destruct H; [left; apply Z.leb_gt | right; apply Z.ltb_ge]; lia.
Qed.

(** ** The enumerator on a valid range *)

Lemma generateExpressions_total nums :
  forall n start end_,
    Z.to_nat (end_ - start) = n ->
    valid_range nums start end_ ->
    exists l, generateExpressions nums start end_ = Ok l.
Proof.
  induction n as [n IH] using lt_wf_ind.
  intros start end_ Hn (H0 & Hle & Hlen).
  rewrite generateExpressions_eq.
  destruct (Z.eqb_spec start end_) as [->|Hne].
  - rewrite subscript_valid by lia. simpl. eauto.
  - rewrite for_split_ok; [eauto|].
    intros j Hj. apply in_splits in Hj.
    split; (eapply IH; [| reflexivity | unfold valid_range]); lia.
Qed.

Lemma generateExpressions_base nums start :
  valid_range nums start start ->
  generateExpressions nums start start
  = Ok [NumberNode (nth (Z.to_nat start) nums 0)].
Proof.
  intros (H0 & _ & Hlen).
  rewrite generateExpressions_eq, Z.eqb_refl, subscript_valid by lia.
  reflexivity.
Qed.

Lemma generateExpressions_step nums start end_ :
  valid_range nums start end_ ->
  start < end_ ->
  generateExpressions nums start end_
  = Ok (enumeration_order (generateExpressions nums) start end_).
Proof.
  intros (H0 & Hle & Hlen) Hlt.
  rewrite generateExpressions_eq.
  destruct (Z.eqb_spec start end_) as [->|_]; [lia|].
  rewrite for_split_ok; [reflexivity|].
  intros j Hj. apply in_splits in Hj.
  split; (eapply generateExpressions_total; [reflexivity | unfold valid_range]);
    lia.
Qed.

(** A tree of a proper range is an operator node over a tree of the left
    part and a tree of the right part of some split. *)
Lemma in_enumeration_order gen start end_ t :
  In t (enumeration_order gen start end_) <->
  exists i oper left_ right_,
    start <= i < end_ /\ t = OperatorNode oper left_ right_
    /\ In oper OPERATORS
    /\ In left_ (trees_of (gen start i))
    /\ In right_ (trees_of (gen (i + 1) end_)).
Proof.
  unfold enumeration_order. rewrite in_flat_map. split.
  - intros (i & Hi & H). apply in_splits in Hi. apply in_per_pair in H.
    destruct H as (oper & l & r & H). exists i, oper, l, r.
    split; [lia | exact H].
  - intros (i & oper & l & r & Hi & H). exists i. split.
    + apply in_splits. lia.
    + apply in_per_pair. now exists oper, l, r.
Qed.

(** ** Slices of the sequence *)

Lemma firstn_add {A : Type} (a b : nat) (l : list A) :
  firstn (a + b) l = firstn a l ++ firstn b (skipn a l).
Proof.
  revert l. induction a as [|a IH]; intros [|x l]; simpl;
    rewrite ?firstn_nil; try reflexivity.
  now rewrite IH.
Qed.

Lemma skipn_nth {A : Type} (d : A) (l : list A) :
  forall k, (k < length l)%nat -> skipn k l = nth k l d :: skipn (S k) l.
Proof.
  induction l as [|x l IH]; intros k Hk; simpl in Hk; [lia|].
  destruct k as [|k]; [reflexivity|].
  simpl. rewrite IH by lia. reflexivity.
Qed.

Lemma slice_single nums start :
  valid_range nums start start ->
  slice nums start start = [nth (Z.to_nat start) nums 0].
Proof.
  intros (H0 & _ & Hlen). unfold slice.
  rewrite Z.sub_diag. simpl Z.to_nat.
  rewrite (skipn_nth 0) by lia. simpl. reflexivity.
Qed.

Lemma slice_split nums start i end_ :
  0 <= start -> start <= i < end_ ->
  slice nums start end_ = slice nums start i ++ slice nums (i + 1) end_.
Proof.
  intros H0 Hi. unfold slice.
  replace (Z.to_nat (end_ - start + 1))
    with (Z.to_nat (i - start + 1) + Z.to_nat (end_ - (i + 1) + 1))%nat by lia.
  rewrite firstn_add, skipn_skipn.
  replace (Z.to_nat (i - start + 1) + Z.to_nat start)%nat
    with (Z.to_nat (i + 1)) by lia.
  reflexivity.
Qed.

Lemma slice_full nums :
  size_fits nums -> slice nums 0 (last_index nums) = nums.
Proof.
  intros H. rewrite (last_index_fits nums H). unfold slice. simpl skipn.
  replace (Z.to_nat (Z.of_nat (length nums) - 1 - 0 + 1)) with (length nums) by lia.
  apply firstn_all.
Qed.

(** Every tree of a valid range holds the elements of the range, each once
    and in their order, under operators of [OPERATORS]. *)
Lemma generateExpressions_trees nums :
  forall n start end_ t,
    Z.to_nat (end_ - start) = n ->
    valid_range nums start end_ ->
    In t (trees_of (generateExpressions nums start end_)) ->
    leaves t = slice nums start end_ /\ operators_fixed t.
Proof.
  induction n as [n IH] using lt_wf_ind.
  intros start end_ t Hn Hv Hin.
  destruct (Z.eq_dec start end_) as [<-|Hne].
  - rewrite generateExpressions_base in Hin by assumption.
    destruct Hin as [<-|[]]. simpl. now rewrite slice_single.
  - destruct Hv as (H0 & Hle & Hlen).
    rewrite generateExpressions_step in Hin by (unfold valid_range; lia).
    apply in_enumeration_order in Hin.
    destruct Hin as (i & oper & l & r & Hi & -> & Hop & Hl & Hr).
    apply (IH (Z.to_nat (i - start))) in Hl;
      [| lia | reflexivity | unfold valid_range; lia].
    apply (IH (Z.to_nat (end_ - (i + 1)))) in Hr;
      [| lia | reflexivity | unfold valid_range; lia].
    destruct Hl as [Hl Hlf], Hr as [Hr Hrf]. simpl.
    rewrite Hl, Hr, <- slice_split by lia. auto.
Qed.

(** ** Evaluation *)

Lemma in_OPERATORS oper :
  In oper OPERATORS <->
  (oper = "+" \/ oper = "-" \/ oper = "*" \/ oper = "/")%char.
Proof. unfold OPERATORS. simpl. intuition congruence. Qed.

Lemma evaluate_operator oper tl tr :
  evaluate (OperatorNode oper tl tr)
  = (leftVal <- evaluate tl ;; rightVal <- evaluate tr ;;
     apply_operator oper leftVal rightVal).
Proof. reflexivity. Qed.

Lemma apply_operator_div a b :
  apply_operator "/" a b
  = if negb (b =? 0) then
      match Int.div a b with
      | Some quotient => Ok quotient
      | None => Fail DivideError
      end
    else Ok Int.INT_MAX.
Proof. reflexivity. Qed.

(** The [switch] throws on a symbol outside [OPERATORS] and on no other. *)
Lemma apply_operator_invalid oper a b :
  ~ In oper OPERATORS -> apply_operator oper a b = Fail InvalidArgument.
Proof.
  intros Hop. rewrite in_OPERATORS in Hop. unfold apply_operator.
  repeat match goal with |- context [(oper =? ?c)%char] =>
    destruct (Ascii.eqb_spec oper c); [tauto|] end.
  reflexivity.
Qed.

Lemma apply_operator_fixed oper a b :
  In oper OPERATORS -> apply_operator oper a b <> Fail InvalidArgument.
Proof.
  intros Hop. apply in_OPERATORS in Hop. unfold apply_operator.
  destruct Hop as [-> | [-> | [-> | ->]]]; simpl; try discriminate.
  destruct (negb (b =? 0)); [|discriminate].
  destruct (Int.div a b); discriminate.
Qed.



(** A tree over the fixed operators never throws. *)
Lemma evaluate_fixed t : operators_fixed t -> evaluate t <> Fail InvalidArgument.
Proof.
  induction t as [v | oper l IHl r IHr]; [discriminate|].
  cbn [operators_fixed]. intros (Hop & Hl & Hr). rewrite evaluate_operator.
  specialize (IHl Hl). specialize (IHr Hr).
  destruct (evaluate l) as [lv|fl]; simpl; [|congruence].
  destruct (evaluate r) as [rv|fr]; simpl; [|congruence].
  now apply apply_operator_fixed.
Qed.

(** The value of a tree over [int] literals is an [int]. *)
Lemma evaluate_in_range t v :
  literals_int t -> evaluate t = Ok v -> Int.in_range v.
Proof.
  destruct t as [value | oper l r].
  - simpl. now intros H [= <-].
  - intros _. rewrite evaluate_operator.
    destruct (evaluate l) as [lv|]; simpl; [|discriminate].
    destruct (evaluate r) as [rv|]; simpl; [|discriminate].
    unfold apply_operator.
    repeat match goal with |- context [(oper =? ?c)%char] =>
      destruct (oper =? c)%char end;
      try (intros [= <-]; apply wrap_in_range); try discriminate.
    destruct (negb (rv =? 0)).
    + destruct (Int.div lv rv) as [q|] eqn:D; [|discriminate].
      intros [= <-]. now apply div_some in D.
    + intros [= <-]. unfold Int.in_range, Int.INT_MIN, Int.INT_MAX. lia.
Qed.

(** ** The filtering loop *)

(** When every expression has a value the loop returns, having appended the
    renderings of those that reach the target, in their order. *)
Lemma for_expression_returns target expressions :
  Forall (fun t => exists v, evaluate t = Ok v) expressions ->
  forall result,
    for_expression expressions target result
    = Ok (result ++ map toString (filter (reaches target) expressions)).
Proof.
  induction 1 as [|t ts Ht _ IH]; intros result; simpl.
  - now rewrite app_nil_r.
  - unfold reaches at 1.
    destruct Ht as [v ->]. simpl. rewrite IH.
    destruct (v =? target); simpl; [unfold push_back; now rewrite <- app_assoc|].
    reflexivity.
Qed.

(** The loop returns only when every expression had a value. *)
Lemma for_expression_Ok target expressions :
  forall result r,
    for_expression expressions target result = Ok r ->
    Forall (fun t => exists v, evaluate t = Ok v) expressions
    /\ r = result ++ map toString (filter (reaches target) expressions).
Proof.
  induction expressions as [|t ts IH]; intros result r E.
  - simpl in E. injection E as <-. split; [constructor | now rewrite app_nil_r].
  - assert (V : Forall (fun t => exists v, evaluate t = Ok v) (t :: ts)).
    { pose proof E as E'. cbn [for_expression] in E'.
      destruct (evaluate t) as [v|f] eqn:Et; simpl in E'; [|discriminate E'].
      apply IH in E'. constructor; [eauto | tauto]. }
    split; [exact V|].
    rewrite (for_expression_returns target (t :: ts) V) in E. congruence.
Qed.


Lemma for_expression_fail_any target expressions :
  forall r1 r2 f,
    for_expression expressions target r1 = Fail f ->
    for_expression expressions target r2 = Fail f.
Proof.
  induction expressions as [|t ts IH]; intros r1 r2 f E; [discriminate E|].
  cbn [for_expression] in *.
  destruct (evaluate t) as [v|f']; simpl in *; [|exact E].
  exact (IH _ _ _ E).
Qed.

(** What the loop does to [result] is to append to it. *)
Lemma for_expression_append target expressions :
  forall result,
    for_expression expressions target result
    = match for_expression expressions target [] with
      | Ok added => Ok (result ++ added)
      | Fail f => Fail f
      end.
Proof.
  intros result.
  destruct (for_expression expressions target []) as [added|f] eqn:E.
  - apply for_expression_Ok in E. destruct E as [V ->].
    now rewrite (for_expression_returns target expressions V).
  - exact (for_expression_fail_any target expressions _ _ _ E).
Qed.

(** In the embedding a call on a range that is not valid returns no tree:
    a reversed range gives the empty list, and the others stop at the read
    outside the vector.  So the trees of every returned list are over the
    fixed operators. *)
Lemma generateExpressions_reversed nums start end_ :
  end_ < start -> generateExpressions nums start end_ = Ok [].
Proof.
  intros H. rewrite generateExpressions_eq.
  destruct (Z.eqb_spec start end_); [lia|].
  replace (Z.to_nat (end_ - start)) with 0%nat by lia. reflexivity.
Qed.

Lemma generateExpressions_out_of_bounds nums :
  forall n start end_,
    Z.to_nat (end_ - start) = n ->
    start <= end_ ->
    start < 0 \/ Z.of_nat (length nums) <= end_ ->
    generateExpressions nums start end_ = Fail OutOfBounds.
Proof.
  induction n as [n IH] using lt_wf_ind.
  intros start end_ Hn Hle Hout.
  rewrite generateExpressions_eq.
  destruct (Z.eqb_spec start end_) as [->|Hne].
  - rewrite subscript_invalid by lia. reflexivity.
  - replace (Z.to_nat (end_ - start)) with (S (Z.to_nat (end_ - start - 1))) by lia.
    simpl.
    destruct (Z_lt_ge_dec start 0) as [Hneg|Hpos];
      [| destruct (Z_lt_ge_dec start (Z.of_nat (length nums))) as [Hin|Hbig]].
    + rewrite (IH 0%nat) by lia. reflexivity.
    + rewrite generateExpressions_base by (unfold valid_range; lia). simpl.
      rewrite (IH (Z.to_nat (end_ - (start + 1)))) by lia. reflexivity.
    + rewrite (IH 0%nat) by lia. reflexivity.
Qed.

(** The fuel never runs out: the embedding returns, or stops at a read
    outside the vector. *)
Lemma generateExpressions_outcome nums start end_ :
  (exists l, generateExpressions nums start end_ = Ok l)
  \/ generateExpressions nums start end_ = Fail OutOfBounds.
Proof.
  destruct (Z_lt_ge_dec end_ start) as [Hrev|Hle].
  - left. exists []. now apply generateExpressions_reversed.
  - destruct (Z_lt_ge_dec start 0) as [Hneg|Hpos];
      [| destruct (Z_lt_ge_dec end_ (Z.of_nat (length nums))) as [Hin|Hbig]].
    + right. apply (generateExpressions_out_of_bounds nums _ _ _ eq_refl); lia.
    + left. apply (generateExpressions_total nums _ _ _ eq_refl).
      unfold valid_range. lia.
    + right. apply (generateExpressions_out_of_bounds nums _ _ _ eq_refl); lia.
Qed.

Lemma valid_range_dec nums start end_ :
  {valid_range nums start end_} + {~ valid_range nums start end_}.
Proof.
  unfold valid_range.
  destruct (Z_le_dec 0 start), (Z_le_dec start end_),
    (Z_lt_dec end_ (Z.of_nat (length nums))); tauto.
Qed.

Lemma generateExpressions_operators nums start end_ t :
  In t (trees_of (generateExpressions nums start end_)) -> operators_fixed t.
Proof.
  destruct (valid_range_dec nums start end_) as [Hv|Hv].
  - intros H. now apply (generateExpressions_trees nums _ start end_ t eq_refl Hv).
  - destruct (Z_lt_ge_dec end_ start) as [Hrev|Hle].
    + rewrite generateExpressions_reversed by assumption. intros [].
    + rewrite (generateExpressions_out_of_bounds nums _ start end_ eq_refl);
        [intros [] | lia | unfold valid_range in Hv; lia].
Qed.

Lemma generateExpressions_target_eq nums start end_ target result :
  generateExpressions_target nums start end_ target result
  = match generateExpressions nums start end_ with
    | Ok l => for_expression l target result
    | Fail f => Fail f
    end.
Proof. reflexivity. Qed.

(** ** Rendering *)

Lemma append_assoc (a b c : string) : ((a ++ b) ++ c = a ++ (b ++ c))%string.
Proof. induction a as [|x a IH]; simpl; [reflexivity | now rewrite IH]. Qed.

Lemma chars_append (a b : string) :
  list_ascii_of_string (a ++ b)
  = list_ascii_of_string a ++ list_ascii_of_string b.
Proof. induction a as [|x a IH]; simpl; [reflexivity | now rewrite IH]. Qed.

Lemma to_int_proper v : Z.to_int v <> Pos Nil /\ Z.to_int v <> Neg Nil.
Proof.
  destruct v as [|p|p]; simpl; split; try discriminate;
    intros [= E]; now apply (DecimalPos.Unsigned.to_uint_nonnil p).
Qed.

(** Reading the rendering of [v] gives [v] back. *)
Lemma of_string_to_string v : of_string (to_string v) = Some v.
Proof.
  unfold of_string, to_string.
  destruct (to_int_proper v) as [Hp Hn].
  rewrite NilZero.isi by assumption. simpl.
  now rewrite DecimalZ.of_to.
Qed.

Ltac in_chars :=
  unfold expression_chars, digit_chars; simpl;
  repeat first [left; reflexivity | right].

Lemma string_of_uint_digits d :
  Forall (fun c => In c digit_chars)
         (list_ascii_of_string (NilEmpty.string_of_uint d)).
Proof.
  induction d; simpl NilEmpty.string_of_uint; simpl list_ascii_of_string;
    constructor; try assumption; in_chars.
Qed.

Lemma to_string_chars v :
  Forall (fun c => In c expression_chars) (list_ascii_of_string (to_string v)).
Proof.
  assert (D : forall d, Forall (fun c => In c expression_chars)
                          (list_ascii_of_string (NilZero.string_of_uint d))).
  { intros d.
    assert (H : Forall (fun c => In c expression_chars)
                  (list_ascii_of_string (NilEmpty.string_of_uint d))).
    { eapply Forall_impl; [|apply string_of_uint_digits].
      intros c Hc. unfold expression_chars. apply in_or_app. now left. }
    destruct d; try exact H.
    constructor; [in_chars | constructor]. }
  unfold to_string. destruct (Z.to_int v) as [d|d]; simpl.
  - apply D.
  - constructor; [in_chars | apply D].
Qed.

Lemma toString_chars t :
  operators_fixed t ->
  Forall (fun c => In c expression_chars) (list_ascii_of_string (toString t)).
Proof.
  induction t as [v | oper l IHl r IHr]; simpl.
  - intros _. apply to_string_chars.
  - intros (Hop & Hl & Hr).
    rewrite !chars_append. simpl.
    constructor; [in_chars|].
    apply Forall_app. split; [apply Forall_app; split; [apply Forall_app; split|]|].
    + now apply IHl.
    + constructor; [|constructor]. apply in_OPERATORS in Hop.
      destruct Hop as [-> | [-> | [-> | ->]]]; in_chars.
    + now apply IHr.
    + constructor; [in_chars | constructor].
Qed.

Lemma generateExpressions_returns nums start end_ :
  valid_range nums start end_ ->
  exists l, generateExpressions nums start end_ = Ok l.
Proof. now apply (generateExpressions_total nums (Z.to_nat (end_ - start))). Qed.

Lemma generateExpressions_tree nums start end_ t :
  valid_range nums start end_ ->
  In t (trees_of (generateExpressions nums start end_)) ->
  leaves t = slice nums start end_ /\ operators_fixed t.
Proof. now apply (generateExpressions_trees nums (Z.to_nat (end_ - start))). Qed.

Lemma full_range_valid nums :
  nums <> [] -> size_fits nums -> valid_range nums 0 (last_index nums).
Proof.
  intros H Hs. rewrite (last_index_fits nums Hs). unfold valid_range.
  destruct nums as [|x nums]; [congruence|]. simpl length. lia.
Qed.

(** A result of the driver: the enumerator returned its trees, each of them
    had a value, and the result renders those that reach the target. *)
Lemma findExpressions_Ok nums target result :
  findExpressions nums target = Ok result ->
  exists l,
    generateExpressions nums 0 (last_index nums) = Ok l
    /\ Forall (fun t => exists v, evaluate t = Ok v) l
    /\ result = map toString (filter (reaches target) l).
Proof.
  unfold findExpressions. rewrite generateExpressions_target_eq.
  destruct (generateExpressions nums 0 (last_index nums)) as [l|f];
    [|discriminate].
  intros E. apply for_expression_Ok in E. destruct E as [V ->].
  exists l. auto.
Qed.

Lemma findExpressions_returns nums target l :
  generateExpressions nums 0 (last_index nums) = Ok l ->
  Forall (fun t => exists v, evaluate t = Ok v) l ->
  findExpressions nums target = Ok (map toString (filter (reaches target) l)).
Proof.
  intros E V. unfold findExpressions.
  rewrite generateExpressions_target_eq, E.
  now rewrite (for_expression_returns target l V).
Qed.

Lemma reaches_true target t : reaches target t = true <-> evaluate t = Ok target.
Proof.
  unfold reaches. destruct (evaluate t) as [v|f].
  - rewrite Z.eqb_eq. split; congruence.
  - split; discriminate.
Qed.

(** * The specification, statement by statement *)

Example main_example :
  findExpressions [2; 3; 4] 20 = Ok ["((2+3)*4)"]%string.
Proof. vm_compute. reflexivity. Qed.

(** C1.  For a non-empty sequence [nums] (of a size that [nums.size() - 1]
    holds as an [int]) and a target, every string of a result that
    [findExpressions] returns is the rendering of a tree that the enumerator
    built for the full range, whose literals are the elements of [nums], each
    once and in their order, whose operators are among [OPERATORS], and whose
    value is exactly the target. *)
Theorem findExpressions_sound
    (nums : list Z) (target : Z) (result : list string) (s : string) :
  nums <> [] ->
  size_fits nums ->
  findExpressions nums target = Ok result ->
  In s result ->
  exists t,
    In t (trees_of (generateExpressions nums 0 (last_index nums)))
    /\ s = toString t
    /\ leaves t = nums
    /\ operators_fixed t
    /\ evaluate t = Ok target.
Proof.
  intros Hne Hsz E Hs. pose proof (full_range_valid nums Hne Hsz) as Hv.
  apply findExpressions_Ok in E. destruct E as (l & El & _ & ->).
  pose proof (generateExpressions_tree nums 0 (last_index nums)) as Ht.
  rewrite El in *. simpl in Ht.
  apply in_map_iff in Hs. destruct Hs as (t & <- & Hin).
  apply filter_In in Hin. destruct Hin as [Hin Hr].
  destruct (Ht t Hv Hin) as [Hl Hf].
  exists t. rewrite slice_full in Hl by assumption.
  repeat split; try assumption. now apply reaches_true.
Qed.

Lemma findExpressions_sound_witness :
  [2; 3; 4] <> []
  /\ size_fits [2; 3; 4]
  /\ findExpressions [2; 3; 4] 20 = Ok ["((2+3)*4)"%string]
  /\ In "((2+3)*4)"%string ["((2+3)*4)"%string]
  /\ exists t,
       In t (trees_of (generateExpressions [2; 3; 4] 0 (last_index [2; 3; 4])))
       /\ "((2+3)*4)"%string = toString t
       /\ leaves t = [2; 3; 4]
       /\ operators_fixed t
       /\ evaluate t = Ok 20.
Proof.
  assert (H1 : [2; 3; 4] <> []) by discriminate.
  assert (H2 : size_fits [2; 3; 4])
    by (unfold size_fits, Int.INT_MAX; simpl; lia).
  assert (H3 : findExpressions [2; 3; 4] 20 = Ok ["((2+3)*4)"%string])
    by (vm_compute; reflexivity).
  assert (H4 : In "((2+3)*4)"%string ["((2+3)*4)"%string]) by (now left).
  repeat (split; [assumption|]).
  exact (findExpressions_sound [2; 3; 4] 20 _ _ H1 H2 H3 H4).
Defined.

(** C2.  A ['/'] node whose right subtree evaluates to zero (the left
    subtree having a value) evaluates to [INT_MAX] and does not fail; and
    [findExpressions] on [[5, 0]] with target [INT_MAX] returns a sequence
    that contains ["(5/0)"]. *)
Theorem division_by_zero_sentinel (left_ right_ : ASTNode) (leftVal : Z) :
  evaluate left_ = Ok leftVal ->
  evaluate right_ = Ok 0 ->
  evaluate (OperatorNode "/" left_ right_) = Ok Int.INT_MAX
  /\ exists result,
       findExpressions [5; 0] Int.INT_MAX = Ok result
       /\ In "(5/0)"%string result.
Proof.
  intros Hl Hr. split.
  - simpl. rewrite Hl, Hr. reflexivity.
  - exists ["(5/0)"%string]. split; [vm_compute; reflexivity | now left].
Qed.

Lemma division_by_zero_sentinel_witness :
  evaluate (OperatorNode "/" (NumberNode 5) (NumberNode 0)) = Ok Int.INT_MAX
  /\ exists result,
       findExpressions [5; 0] Int.INT_MAX = Ok result
       /\ In "(5/0)"%string result.
Proof.
  apply (division_by_zero_sentinel (NumberNode 5) (NumberNode 0) 5); reflexivity.
Defined.

(** C3, as the code has it.  On the empty sequence [nums.size() - 1] is
    [-1], the range [[0, -1]] has no split, and [findExpressions] returns
    the empty sequence of strings for every target: a return, not a
    failure. *)
Theorem findExpressions_empty (target : Z) : findExpressions [] target = Ok [].
Proof. reflexivity. Qed.

(** C3 as stated fails: on the empty sequence and target [0] the call
    returns (the empty sequence) and so does not fail. *)
Lemma empty_input_is_not_a_failure :
  findExpressions [] 0 = Ok [] /\ ~ (exists f, findExpressions [] 0 = Fail f).
Proof.
  split; [reflexivity | intros [f H]; discriminate H].
Qed.

(** C4.  On a valid range the enumerator returns, and the number of trees
    it returns is 1 when [start = end] and otherwise the sum, over the split
    indices [i] from [start] to [end - 1], of
    [count(start, i) * count(i + 1, end) * 4]. *)
Theorem count_recurrence (nums : list Z) (start end_ : Z) :
  valid_range nums start end_ ->
  (exists l, generateExpressions nums start end_ = Ok l)
  /\ count nums start end_
     = if start =? end_ then 1%nat
       else list_sum
              (map (fun i => (count nums start i * count nums (i + 1) end_ * 4)%nat)
                   (splits start (Z.to_nat (end_ - start)))).
Proof.
  intros Hv. split; [now apply generateExpressions_returns|].
  unfold count at 1.
  destruct (Z.eqb_spec start end_) as [<-|Hne].
  - now rewrite generateExpressions_base.
  - rewrite generateExpressions_step by (unfold valid_range in *; lia).
    simpl. unfold enumeration_order. rewrite length_flat_map. f_equal.
    apply map_ext. intros i. apply per_pair_length.
Qed.

Lemma count_recurrence_witness :
  valid_range [2; 3; 4] 0 2 /\
  (exists l, generateExpressions [2; 3; 4] 0 2 = Ok l)
  /\ count [2; 3; 4] 0 2
     = if 0 =? 2 then 1%nat
       else list_sum
              (map (fun i => (count [2; 3; 4]%Z 0 i * count [2; 3; 4]%Z (i + 1) 2 * 4)%nat)
                   (splits 0 (Z.to_nat (2 - 0)))).
Proof.
  split; [unfold valid_range; simpl; lia|].
  apply (count_recurrence [2; 3; 4] 0 2). unfold valid_range; simpl; lia.
Defined.

Example count_three : count [2; 3; 4] 0 2 = 32%nat.
Proof. vm_compute. reflexivity. Qed.

(** C5.  On a valid range the enumerator returns its trees in the order of
    [enumeration_order]: split index ascending from [start] to [end - 1];
    within a split the left trees outermost, the right trees nested inside
    and the operators [+ - * /] innermost (the single literal when
    [start = end]).  A result that [findExpressions] returns holds the
    renderings of the trees of its range that reach the target, in that
    order. *)
Theorem enumeration_in_order
    (nums : list Z) (start end_ target : Z) (result : list string) :
  valid_range nums start end_ ->
  generateExpressions nums start end_
  = Ok (if start =? end_
        then [NumberNode (nth (Z.to_nat start) nums 0)]
        else enumeration_order (generateExpressions nums) start end_)
  /\ (findExpressions nums target = Ok result ->
      result
      = map toString
          (filter (reaches target)
             (trees_of (generateExpressions nums 0 (last_index nums))))).
Proof.
  intros Hv. split.
  - destruct (Z.eqb_spec start end_) as [<-|Hne].
    + now apply generateExpressions_base.
    + apply generateExpressions_step; [assumption|].
      unfold valid_range in Hv. lia.
  - intros E. apply findExpressions_Ok in E.
    destruct E as (l & -> & _ & ->). reflexivity.
Qed.

Lemma enumeration_in_order_witness :
  valid_range [2; 3; 4] 0 2
  /\ findExpressions [2; 3; 4] 20 = Ok ["((2+3)*4)"%string]
  /\ generateExpressions [2; 3; 4] 0 2
     = Ok (if 0 =? 2
           then [NumberNode (nth (Z.to_nat 0) [2; 3; 4] 0)]
           else enumeration_order (generateExpressions [2; 3; 4]) 0 2)
  /\ ["((2+3)*4)"%string]
     = map toString
         (filter (reaches 20)
            (trees_of (generateExpressions [2; 3; 4] 0 (last_index [2; 3; 4])))).
Proof.
  assert (H1 : valid_range [2; 3; 4] 0 2) by (unfold valid_range; simpl; lia).
  assert (H2 : findExpressions [2; 3; 4] 20 = Ok ["((2+3)*4)"%string])
    by (vm_compute; reflexivity).
  destruct (enumeration_in_order [2; 3; 4] 0 2 20 ["((2+3)*4)"%string] H1)
    as [Ho Hr].
  split; [exact H1|]. split; [exact H2|]. split; [exact Ho | exact (Hr H2)].
Defined.

Example order_two :
  generateExpressions [1; 2] 0 1
  = Ok [OperatorNode "+" (NumberNode 1) (NumberNode 2);
        OperatorNode "-" (NumberNode 1) (NumberNode 2);
        OperatorNode "*" (NumberNode 1) (NumberNode 2);
        OperatorNode "/" (NumberNode 1) (NumberNode 2)].
Proof. vm_compute. reflexivity. Qed.

(** C6, as the code has it.  The enumerator checks no range and has no
    [InvalidRange] condition.  With [start > end], whatever the sequence and
    wherever the indices lie, the loop has no iteration: the call returns no
    tree, without failing, and the filtering overload returns [result] as it
    was. *)
Theorem reversed_range_is_empty
    (nums : list Z) (start end_ target : Z) (result : list string) :
  end_ < start ->
  generateExpressions nums start end_ = Ok []
  /\ generateExpressions_target nums start end_ target result = Ok result.
Proof.
  intros H. rewrite generateExpressions_target_eq.
  rewrite (generateExpressions_reversed nums start end_ H).
  split; reflexivity.
Qed.

Lemma reversed_range_is_empty_witness :
  0 < 1
  /\ generateExpressions [1; 2] 1 0 = Ok []
  /\ generateExpressions_target [1; 2] 1 0 7 ["x"%string] = Ok ["x"%string].
Proof.
  assert (H : 0 < 1) by lia.
  split; [exact H | exact (reversed_range_is_empty [1; 2] 1 0 7 ["x"%string] H)].
Defined.

(** C6 as stated fails: with [start = 1 > end = 0] on [[1, 2]] the
    enumerator returns (no tree) and so does not fail. *)
Lemma reversed_range_returns :
  1 > 0 /\ generateExpressions [1; 2] 1 0 = Ok []
  /\ ~ (exists f, generateExpressions [1; 2] 1 0 = Fail f).
Proof.
  split; [lia|]. split; [reflexivity | intros [f H]; discriminate H].
Qed.

(** C7.  On the one-element sequence [[v]], [findExpressions] returns the
    one-element sequence holding the decimal rendering of [v] when [v] is the
    target, and the empty sequence otherwise. *)
Theorem findExpressions_single (v target : Z) :
  findExpressions [v] target = Ok (if v =? target then [to_string v] else []).
Proof.
  unfold findExpressions. change (last_index [v]) with 0.
  rewrite generateExpressions_target_eq.
  rewrite generateExpressions_base by (unfold valid_range; simpl; lia).
  simpl. now destruct (v =? target).
Qed.

(** C8.  [toString] of a literal is the decimal rendering of its value
    (reading it gives the value back); [toString] of an operator node is
    ["("], the rendering of the left child, the operator character, the
    rendering of the right child and [")"], with nothing in between; and the
    rendering of a tree over the fixed operators contains no space. *)
Theorem toString_rendering (value : Z) (oper : ascii) (left_ right_ t : ASTNode) :
  (toString (NumberNode value) = to_string value
   /\ of_string (toString (NumberNode value)) = Some value)
  /\ toString (OperatorNode oper left_ right_)
     = ("(" ++ toString left_ ++ String oper "" ++ toString right_ ++ ")")%string
  /\ (operators_fixed t -> ~ In " "%char (list_ascii_of_string (toString t))).
Proof.
  split; [split; [reflexivity | apply of_string_to_string]|].
  split.
  - simpl toString. now rewrite !append_assoc.
  - intros Hf Hin.
    pose proof (toString_chars t Hf) as Hc.
    rewrite Forall_forall in Hc. specialize (Hc _ Hin).
    unfold expression_chars, digit_chars in Hc. simpl in Hc.
    repeat (destruct Hc as [Hc|Hc]; [discriminate Hc|]). exact Hc.
Qed.

Lemma toString_rendering_witness :
  (toString (NumberNode (-12)) = to_string (-12)
   /\ of_string (toString (NumberNode (-12))) = Some (-12))
  /\ toString (OperatorNode "*" (NumberNode 2) (NumberNode 3))
     = ("(" ++ toString (NumberNode 2) ++ String "*" ""
            ++ toString (NumberNode 3) ++ ")")%string
  /\ ~ In " "%char
         (list_ascii_of_string
            (toString (OperatorNode "+" (NumberNode 2)
                         (OperatorNode "/" (NumberNode 3) (NumberNode (-4)))))).
Proof.
  destruct (toString_rendering (-12) "*" (NumberNode 2) (NumberNode 3)
              (OperatorNode "+" (NumberNode 2)
                 (OperatorNode "/" (NumberNode 3) (NumberNode (-4)))))
    as (H1 & H2 & H3).
  split; [exact H1|]. split; [exact H2|].
  apply H3. simpl. unfold OPERATORS. simpl. tauto.
Defined.

Example toString_example :
  toString (OperatorNode "+" (NumberNode 2)
              (OperatorNode "/" (NumberNode 3) (NumberNode (-4))))
  = "(2+(3/-4))"%string.
Proof. reflexivity. Qed.

(** C9.  An operator node whose symbol is none of [+ - * /], over children
    that evaluate to values, does not evaluate: the [switch] reaches its
    [default] branch and [evaluate] throws [invalid_argument].  No tree of a
    result returned by the enumerator takes that branch: its operators are
    among [OPERATORS] and its evaluation never throws [invalid_argument]. *)
Theorem invalid_operator_unreachable
    (oper : ascii) (left_ right_ : ASTNode) (leftVal rightVal : Z)
    (nums : list Z) (start end_ : Z) (l : list ASTNode) (t : ASTNode) :
  (evaluate left_ = Ok leftVal ->
   evaluate right_ = Ok rightVal ->
   ~ In oper OPERATORS ->
   evaluate (OperatorNode oper left_ right_) = Fail InvalidArgument)
  /\ (generateExpressions nums start end_ = Ok l ->
      In t l ->
      operators_fixed t /\ evaluate t <> Fail InvalidArgument).
Proof.
  split.
  - intros Hl Hr Hop. rewrite evaluate_operator, Hl, Hr. simpl.
    now apply apply_operator_invalid.
  - intros E Hin.
    assert (Hf : operators_fixed t).
    { apply (generateExpressions_operators nums start end_). now rewrite E. }
    split; [exact Hf | now apply evaluate_fixed].
Qed.

Lemma invalid_operator_unreachable_witness :
  evaluate (OperatorNode "^" (NumberNode 2) (NumberNode 3)) = Fail InvalidArgument
  /\ (operators_fixed (OperatorNode "/" (NumberNode 5) (NumberNode 0))
      /\ evaluate (OperatorNode "/" (NumberNode 5) (NumberNode 0))
         <> Fail InvalidArgument).
Proof.
  destruct (invalid_operator_unreachable "^" (NumberNode 2) (NumberNode 3) 2 3
              [5; 0] 0 1
              [OperatorNode "+" (NumberNode 5) (NumberNode 0);
               OperatorNode "-" (NumberNode 5) (NumberNode 0);
               OperatorNode "*" (NumberNode 5) (NumberNode 0);
               OperatorNode "/" (NumberNode 5) (NumberNode 0)]
              (OperatorNode "/" (NumberNode 5) (NumberNode 0)))
    as [H1 H2].
  split.
  - apply H1; [reflexivity | reflexivity |]. unfold OPERATORS. simpl.
    intros [H|[H|[H|[H|[]]]]]; discriminate H.
  - apply H2; [vm_compute; reflexivity | simpl; tauto].
Defined.

(** C10.  The claim fails on the code at one pair of values.  Line 81
    guards the division against a zero divisor only: a ['/'] node over
    [INT_MIN] and [-1] has a nonzero right value and the truncated quotient
    2147483648, which is no [int]; the division is undefined, the program is
    killed, and [evaluate] returns nothing.  The node is the fourth tree of
    the sequence [INT_MIN, -1], so [findExpressions] does not return on that
    sequence, whatever the target. *)
Theorem division_overflow (target : Z) :
  evaluate (NumberNode (-1)) = Ok (-1) /\ -1 <> 0
  /\ Z.quot Int.INT_MIN (-1) = 2147483648
  /\ evaluate (OperatorNode "/" (NumberNode Int.INT_MIN) (NumberNode (-1)))
     = Fail DivideError
  /\ findExpressions [Int.INT_MIN; -1] target = Fail DivideError.
Proof.
  repeat split; try lia; vm_compute; reflexivity.
Qed.

Lemma quot_in_range a b :
  Int.in_range a -> Int.in_range b ->
  b <> 0 -> ~ (a = Int.INT_MIN /\ b = -1) ->
  Int.in_range (Z.quot a b).
Proof.
  unfold Int.in_range, Int.INT_MIN, Int.INT_MAX.
  intros Ha Hb Hb0 Hex.
  pose proof (Z.quot_rem' a b) as E.
  pose proof (Z.rem_bound_abs a b Hb0) as R.
  destruct (Z.eq_dec (Z.rem a b) 0) as [Z0|NZ].
  - rewrite Z0 in E. nia.
  - pose proof (Z.rem_sign_nz a b Hb0 NZ) as Sg. nia.
Qed.

(** * Further properties of the code *)

(** ** Division *)

(** X16.  Away from [INT_MIN / -1] the division truncates toward zero: a
    ['/'] node over trees of [int] literals whose children evaluate to
    [leftVal] and [rightVal], with [rightVal] nonzero and the pair not
    [INT_MIN], [-1], evaluates to the quotient rounded toward zero; a
    division node over 7 and -2 evaluates to -3. *)
Theorem division_truncates (left_ right_ : ASTNode) (leftVal rightVal : Z) :
  literals_int left_ ->
  literals_int right_ ->
  evaluate left_ = Ok leftVal ->
  evaluate right_ = Ok rightVal ->
  rightVal <> 0 ->
  ~ (leftVal = Int.INT_MIN /\ rightVal = -1) ->
  evaluate (OperatorNode "/" left_ right_) = Ok (Z.quot leftVal rightVal)
  /\ evaluate (OperatorNode "/" (NumberNode 7) (NumberNode (-2))) = Ok (-3).
Proof.
  intros Tl Tr Hl Hr Hnz Hex. split; [|reflexivity].
  pose proof (evaluate_in_range _ _ Tl Hl) as Il.
  pose proof (evaluate_in_range _ _ Tr Hr) as Ir.
  rewrite evaluate_operator, Hl, Hr. cbn [bind]. rewrite apply_operator_div.
  destruct (Z.eqb_spec rightVal 0) as [|_]; [contradiction|]. cbn [negb].
  now rewrite div_in_range by now apply quot_in_range.
Qed.

Lemma division_truncates_witness :
  evaluate (OperatorNode "/" (NumberNode (-7)) (NumberNode 2)) = Ok (Z.quot (-7) 2)
  /\ evaluate (OperatorNode "/" (NumberNode 7) (NumberNode (-2))) = Ok (-3).
Proof.
  apply (division_truncates (NumberNode (-7)) (NumberNode 2) (-7) 2);
    try reflexivity;
    try (simpl; unfold Int.in_range, Int.INT_MIN, Int.INT_MAX; lia).
Defined.

(** ** When [evaluate] throws *)

Lemma operators_fixed_dec t : {operators_fixed t} + {~ operators_fixed t}.
Proof.
  induction t as [v | oper l IHl r IHr]; cbn [operators_fixed]; [now left|].
  destruct (in_dec ascii_dec oper OPERATORS), IHl, IHr; tauto.
Qed.




(** ** The enumerator is complete *)

Lemma leaves_length t : (1 <= length (leaves t))%nat.
Proof.
  induction t as [v | oper l IHl r IHr]; simpl; [lia|].
  rewrite length_app. lia.
Qed.

Lemma slice_length nums start end_ :
  valid_range nums start end_ ->
  length (slice nums start end_) = Z.to_nat (end_ - start + 1).
Proof.
  intros (H0 & Hle & Hlen). unfold slice.
  rewrite length_firstn, length_skipn. lia.
Qed.

Lemma app_eq_by_length {A : Type} (a b a' b' : list A) :
  a ++ b = a' ++ b' -> length a = length a' -> a = a' /\ b = b'.
Proof.
  revert a'. induction a as [|x a IH]; intros [|x' a'] E L; simpl in *;
    try discriminate; [tauto|].
  injection E as -> E. destruct (IH a' E) as [-> ->]; [lia | tauto].
Qed.

Lemma enumerator_has_every_tree nums t :
  forall start end_,
    valid_range nums start end_ ->
    operators_fixed t ->
    leaves t = slice nums start end_ ->
    In t (trees_of (generateExpressions nums start end_)).
Proof.
  induction t as [v | oper l IHl r IHr]; intros start end_ Hv Hf Hl.
  - assert (start = end_) as <-.
    { pose proof (slice_length nums start end_ Hv) as L.
      rewrite <- Hl in L. simpl in L. unfold valid_range in Hv. lia. }
    rewrite generateExpressions_base by assumption.
    rewrite slice_single in Hl by assumption. left.
    simpl in Hl. injection Hl as ->. reflexivity.
  - simpl in Hl, Hf. destruct Hf as (Hop & Hfl & Hfr).
    pose proof (slice_length nums start end_ Hv) as L.
    rewrite <- Hl, length_app in L.
    pose proof (leaves_length l) as Ll. pose proof (leaves_length r) as Lr.
    destruct Hv as (H0 & Hle & Hlen).
    set (i := start + Z.of_nat (length (leaves l)) - 1).
    assert (Hi : start <= i < end_) by (unfold i; lia).
    rewrite (slice_split nums start i end_) in Hl by lia.
    apply app_eq_by_length in Hl;
      [| rewrite slice_length by (unfold valid_range; lia); unfold i; lia].
    destruct Hl as [Hl Hr].
    rewrite generateExpressions_step by (unfold valid_range; lia).
    apply in_enumeration_order. exists i, oper, l, r.
    repeat split; try assumption; try lia.
    + apply IHl; [unfold valid_range; lia | assumption..].
    + apply IHr; [unfold valid_range; lia | assumption..].
Qed.

(** X2.  On a valid range the enumerator returns exactly the binary trees
    over the elements of the range: a tree is in the result if and only if
    its operators are among [+ - * /] and its literals, left to right, are
    the elements [nums[start] .. nums[end]]. *)
Theorem enumerator_exact (nums : list Z) (start end_ : Z) (t : ASTNode) :
  valid_range nums start end_ ->
  (In t (trees_of (generateExpressions nums start end_))
   <-> operators_fixed t /\ leaves t = slice nums start end_).
Proof.
  intros Hv. split.
  - intros Hin. destruct (generateExpressions_tree nums start end_ t Hv Hin).
    tauto.
  - intros [Hf Hl]. now apply enumerator_has_every_tree.
Qed.

Lemma enumerator_exact_witness :
  valid_range [2; 3; 4] 0 2 /\
  (In (OperatorNode "*" (OperatorNode "+" (NumberNode 2) (NumberNode 3))
         (NumberNode 4))
      (trees_of (generateExpressions [2; 3; 4] 0 2))
   <-> operators_fixed
         (OperatorNode "*" (OperatorNode "+" (NumberNode 2) (NumberNode 3))
            (NumberNode 4))
       /\ leaves (OperatorNode "*" (OperatorNode "+" (NumberNode 2) (NumberNode 3))
                    (NumberNode 4))
          = slice [2; 3; 4] 0 2).
Proof.
  assert (H : valid_range [2; 3; 4] 0 2) by (unfold valid_range; simpl; lia).
  split; [exact H | exact (enumerator_exact [2; 3; 4] 0 2 _ H)].
Defined.

(** X3.  A result of [findExpressions] misses nothing: for a non-empty
    sequence (of a size that [nums.size() - 1] holds as an [int]), the
    strings of a returned result are exactly the renderings of the trees over
    the whole sequence (operators among [+ - * /], literals the elements of
    [nums] in order) that evaluate to the target. *)
Theorem findExpressions_exact
    (nums : list Z) (target : Z) (result : list string) (s : string) :
  nums <> [] ->
  size_fits nums ->
  findExpressions nums target = Ok result ->
  (In s result <->
   exists t, s = toString t /\ operators_fixed t /\ leaves t = nums
             /\ evaluate t = Ok target).
Proof.
  intros Hne Hsz E. pose proof (full_range_valid nums Hne Hsz) as Hv.
  apply findExpressions_Ok in E. destruct E as (l & El & _ & ->).
  pose proof (generateExpressions_tree nums 0 (last_index nums)) as Hs.
  pose proof (fun t => enumerator_has_every_tree nums t 0 (last_index nums) Hv)
    as Hc.
  rewrite El in *. simpl in Hs, Hc. rewrite slice_full in * by assumption.
  rewrite in_map_iff. split.
  - intros (t & <- & Hin). apply filter_In in Hin. destruct Hin as [Hin Hr].
    destruct (Hs t Hv Hin) as [Hl Hf]. apply reaches_true in Hr.
    exists t. tauto.
  - intros (t & -> & Hf & Hl & He). exists t. split; [reflexivity|].
    apply filter_In. split; [now apply Hc | now apply reaches_true].
Qed.

Lemma findExpressions_exact_witness :
  [2; 3; 4] <> []
  /\ size_fits [2; 3; 4]
  /\ findExpressions [2; 3; 4] 20 = Ok ["((2+3)*4)"%string]
  /\ (In "((2+3)*4)"%string ["((2+3)*4)"%string] <->
      exists t, "((2+3)*4)"%string = toString t /\ operators_fixed t
                /\ leaves t = [2; 3; 4] /\ evaluate t = Ok 20).
Proof.
  assert (H1 : [2; 3; 4] <> []) by discriminate.
  assert (H2 : size_fits [2; 3; 4])
    by (unfold size_fits, Int.INT_MAX; simpl; lia).
  assert (H3 : findExpressions [2; 3; 4] 20 = Ok ["((2+3)*4)"%string])
    by (vm_compute; reflexivity).
  repeat (split; [assumption|]).
  exact (findExpressions_exact [2; 3; 4] 20 _ "((2+3)*4)" H1 H2 H3).
Defined.



Example findExpressions_divides :
  findExpressions [-65536; 32768; -1] 0 = Fail DivideError.
Proof. vm_compute. reflexivity. Qed.

(** ** Renderings identify trees *)

Lemma append_empty (a : string) : (a ++ "")%string = a.
Proof. induction a as [|x a IH]; simpl; [reflexivity | now rewrite IH]. Qed.

Lemma toString_operator oper l r rest :
  (toString (OperatorNode oper l r) ++ rest)%string
  = String "(" (toString l ++ String oper (toString r ++ String ")" rest)).
Proof. simpl. rewrite !append_assoc. reflexivity. Qed.

(** A run of digits followed by something that is not a digit can be read
    in one way only. *)
Lemma uint_prefix_unique u1 :
  forall u2 r1 r2,
    starts_with_digit r1 = false ->
    starts_with_digit r2 = false ->
    (NilEmpty.string_of_uint u1 ++ r1 = NilEmpty.string_of_uint u2 ++ r2)%string ->
    u1 = u2 /\ r1 = r2.
Proof.
  induction u1; intros u2 r1 r2 H1 H2 E; destruct u2; simpl in E;
    try (split; [reflexivity | exact E]);
    try (subst; simpl in *; discriminate);
    try discriminate E;
    injection E as E; destruct (IHu1 _ _ _ H1 H2 E) as [-> ->];
    split; reflexivity.
Qed.

Lemma uint_head_digit u :
  u <> Nil ->
  exists c s, NilEmpty.string_of_uint u = String c s /\ is_digit c = true.
Proof.
  destruct u; intros H; try congruence; simpl; eexists _, _;
    (split; [reflexivity | reflexivity]).
Qed.

Lemma to_string_shape v :
  exists u, u <> Nil
    /\ (Z.to_int v = Pos u \/ Z.to_int v = Neg u)
    /\ to_string v
       = ((match Z.to_int v with Pos _ => "" | Neg _ => "-" end)
          ++ NilEmpty.string_of_uint u)%string.
Proof.
  unfold to_string. destruct (to_int_proper v) as [Hp Hn].
  destruct (Z.to_int v) as [u|u]; exists u;
    (split; [congruence|]); (split; [tauto|]);
    destruct u; try congruence; reflexivity.
Qed.

Lemma to_string_head v :
  exists c s, to_string v = String c s /\ (c = "-"%char \/ is_digit c = true).
Proof.
  destruct (to_string_shape v) as (u & Hu & _ & ->).
  destruct (uint_head_digit u Hu) as (c & s & -> & Hc).
  destruct (Z.to_int v); simpl; eauto.
Qed.

Lemma to_string_prefix_unique v1 v2 r1 r2 :
  starts_with_digit r1 = false ->
  starts_with_digit r2 = false ->
  (to_string v1 ++ r1 = to_string v2 ++ r2)%string ->
  v1 = v2 /\ r1 = r2.
Proof.
  intros H1 H2 E.
  destruct (to_string_shape v1) as (u1 & Hu1 & Hd1 & S1).
  destruct (to_string_shape v2) as (u2 & Hu2 & Hd2 & S2).
  rewrite S1, S2 in E. clear S1 S2.
  destruct (uint_head_digit u1 Hu1) as (c1 & s1 & E1 & D1).
  destruct (uint_head_digit u2 Hu2) as (c2 & s2 & E2 & D2).
  destruct (Z.to_int v1) as [w1|w1] eqn:T1, (Z.to_int v2) as [w2|w2] eqn:T2;
    simpl in E.
  - destruct (uint_prefix_unique _ _ _ _ H1 H2 E) as [-> ->].
    split; [|reflexivity]. apply DecimalZ.to_int_inj. rewrite T1, T2.
    destruct Hd1 as [[= ->]|[=]], Hd2 as [[= ->]|[=]]. reflexivity.
  - rewrite E1 in E. simpl in E. injection E as -> _. discriminate D1.
  - rewrite E2 in E. simpl in E. injection E as <- _. discriminate D2.
  - injection E as E.
    destruct (uint_prefix_unique _ _ _ _ H1 H2 E) as [-> ->].
    split; [|reflexivity]. apply DecimalZ.to_int_inj. rewrite T1, T2.
    destruct Hd1 as [[=]|[= ->]], Hd2 as [[=]|[= ->]]. reflexivity.
Qed.

Lemma operator_not_digit oper rest :
  In oper OPERATORS -> starts_with_digit (String oper rest) = false.
Proof.
  intros H. apply in_OPERATORS in H.
  destruct H as [-> | [-> | [-> | ->]]]; reflexivity.
Qed.

(** A rendering followed by something that is not a digit can be read in
    one way only. *)
Lemma toString_prefix_unique t1 :
  forall t2 r1 r2,
    operators_fixed t1 -> operators_fixed t2 ->
    starts_with_digit r1 = false ->
    starts_with_digit r2 = false ->
    (toString t1 ++ r1 = toString t2 ++ r2)%string ->
    t1 = t2 /\ r1 = r2.
Proof.
  induction t1 as [v1 | o1 l1 IHl r1' IHr];
    intros [v2 | o2 l2 r2'] r1 r2 F1 F2 H1 H2 E.
  - simpl toString in E.
    destruct (to_string_prefix_unique _ _ _ _ H1 H2 E) as [-> ->]. tauto.
  - rewrite toString_operator in E. simpl toString in E.
    destruct (to_string_head v1) as (c & s & Ev & [-> | Hc]);
      rewrite Ev in E; simpl in E; injection E as E _; [discriminate E|].
    subst c. discriminate Hc.
  - rewrite toString_operator in E. simpl toString in E.
    destruct (to_string_head v2) as (c & s & Ev & [-> | Hc]);
      rewrite Ev in E; simpl in E; injection E as E _; [discriminate E|].
    subst c. discriminate Hc.
  - rewrite !toString_operator in E. injection E as E.
    cbn [operators_fixed] in F1, F2.
    destruct F1 as (O1 & Fl1 & Fr1), F2 as (O2 & Fl2 & Fr2).
    apply IHl in E; try assumption; try now apply operator_not_digit.
    destruct E as [-> E]. injection E as -> E.
    apply IHr in E; try assumption; try reflexivity.
    destruct E as [-> E]. injection E as ->. tauto.
Qed.

(** X4.  Two trees over the operators [+ - * /] with the same rendering are
    the same tree: the fully parenthesized string determines the tree, its
    literals (negative ones included) and its operators. *)
Theorem toString_injective (t1 t2 : ASTNode) :
  operators_fixed t1 -> operators_fixed t2 ->
  toString t1 = toString t2 -> t1 = t2.
Proof.
  intros F1 F2 E.
  apply (toString_prefix_unique t1 t2 "" "" F1 F2 eq_refl eq_refl).
  now rewrite !append_empty.
Qed.

Lemma toString_injective_witness :
  OperatorNode "-" (NumberNode 1) (NumberNode (-2))
  = OperatorNode "-" (NumberNode 1) (NumberNode (-2)).
Proof.
  apply toString_injective; [simpl; tauto | simpl; tauto | reflexivity].
Defined.

(** ** No tree and no string is produced twice *)

Lemma NoDup_flat_map {A B : Type} (f : A -> list B) (l : list A) :
  NoDup l ->
  (forall a, In a l -> NoDup (f a)) ->
  (forall a a' b, In a l -> In a' l -> In b (f a) -> In b (f a') -> a = a') ->
  NoDup (flat_map f l).
Proof.
  induction 1 as [|a l Ha Hl IH]; intros Hf Hd; simpl; [constructor|].
  apply NoDup_app.
  - apply Hf; now left.
  - apply IH; [intros; apply Hf; now right|].
    intros a1 a2 b H1 H2. apply Hd; now right.
  - intros b Hb Hb'. apply in_flat_map in Hb'. destruct Hb' as (a' & Ha' & Hb').
    assert (a = a') as <- by (apply (Hd a a' b); simpl; auto).
    contradiction.
Qed.

Lemma NoDup_OPERATORS : NoDup OPERATORS.
Proof.
  unfold OPERATORS.
  repeat (constructor; [simpl; intuition discriminate|]). constructor.
Qed.

Lemma per_pair_NoDup lefts rights :
  NoDup lefts -> NoDup rights -> NoDup (per_pair lefts rights).
Proof.
  intros Hl Hr. unfold per_pair.
  apply NoDup_flat_map; [assumption | |].
  - intros l _. apply NoDup_flat_map; [assumption | |].
    + intros r _. unfold per_operator.
      apply NoDup_map_NoDup_ForallPairs; [|apply NoDup_OPERATORS].
      intros o o' _ _ [= ->]. reflexivity.
    + intros r r' t _ _ H H'. unfold per_operator in *.
      apply in_map_iff in H, H'.
      destruct H as (o & <- & _), H' as (o' & [= _ ->] & _). reflexivity.
  - intros l l' t _ _ H H'. apply in_flat_map in H, H'.
    destruct H as (r & _ & H), H' as (r' & _ & H'). unfold per_operator in *.
    apply in_map_iff in H, H'.
    destruct H as (o & <- & _), H' as (o' & [= _ -> _] & _). reflexivity.
Qed.

Lemma NoDup_splits i trips : NoDup (splits i trips).
Proof.
  unfold splits. apply NoDup_map_NoDup_ForallPairs; [|apply seq_NoDup].
  intros k k' _ _ H. lia.
Qed.

Lemma enumerator_NoDup nums :
  forall n start end_,
    Z.to_nat (end_ - start) = n ->
    NoDup (trees_of (generateExpressions nums start end_)).
Proof.
  induction n as [n IH] using lt_wf_ind. intros start end_ Hn.
  destruct (valid_range_dec nums start end_) as [Hv|Hv].
  - destruct (Z.eq_dec start end_) as [<-|Hne].
    + rewrite generateExpressions_base by assumption.
      constructor; [intros [] | constructor].
    + destruct Hv as (H0 & Hle & Hlen).
      rewrite generateExpressions_step by (unfold valid_range; lia).
      simpl. unfold enumeration_order.
      apply NoDup_flat_map; [apply NoDup_splits | |].
      * intros i Hi. apply in_splits in Hi.
        apply per_pair_NoDup; (eapply IH; [|reflexivity]); lia.
      * intros i i' t Hi Hi' H H'. apply in_splits in Hi, Hi'.
        apply in_per_pair in H, H'.
        destruct H as (o & l & r & -> & _ & Hl & _).
        destruct H' as (o' & l' & r' & [= _ <- _] & _ & Hl' & _).
        apply generateExpressions_tree in Hl; [|unfold valid_range; lia].
        apply generateExpressions_tree in Hl'; [|unfold valid_range; lia].
        destruct Hl as [Hl _], Hl' as [Hl' _].
        pose proof (slice_length nums start i) as L.
        pose proof (slice_length nums start i') as L'.
        rewrite <- Hl in L. rewrite <- Hl' in L'.
        unfold valid_range in L, L'. lia.
  - destruct (generateExpressions_outcome nums start end_) as [[l E]|E];
      rewrite E; simpl; [|constructor].
    destruct (Z_lt_ge_dec end_ start) as [Hrev|Hle].
    + rewrite generateExpressions_reversed in E by assumption.
      injection E as <-. constructor.
    + rewrite (generateExpressions_out_of_bounds nums _ start end_ eq_refl) in E;
        [discriminate E | lia | unfold valid_range in Hv; lia].
Qed.

(** X5.  On a valid range, the collection that the enumerator returns holds
    no two equal trees: any two of its entries differ in a split, a subtree
    or an operator.  (This speaks of the returned vector, not of the objects:
    the sub-ranges are enumerated again for every split.) *)
Theorem generateExpressions_no_repeat (nums : list Z) (start end_ : Z) :
  valid_range nums start end_ ->
  NoDup (trees_of (generateExpressions nums start end_)).
Proof. intros _. now apply (enumerator_NoDup nums (Z.to_nat (end_ - start))). Qed.

Lemma generateExpressions_no_repeat_witness :
  NoDup (trees_of (generateExpressions [1; 1; 1] 0 2)).
Proof.
  apply (generateExpressions_no_repeat [1; 1; 1] 0 2).
  unfold valid_range. simpl. lia.
Defined.

(** X6.  [findExpressions] never returns the same string twice: whatever
    the sequence (repeated elements included) and the target, the strings of
    a returned result are pairwise different. *)
Theorem findExpressions_no_repeat (nums : list Z) (target : Z) (result : list string) :
  findExpressions nums target = Ok result -> NoDup result.
Proof.
  intros E. apply findExpressions_Ok in E. destruct E as (l & El & _ & ->).
  pose proof (enumerator_NoDup nums _ 0 (last_index nums) eq_refl) as Hn.
  pose proof (generateExpressions_operators nums 0 (last_index nums)) as Hf.
  rewrite El in Hn, Hf. simpl in Hn, Hf.
  apply NoDup_map_NoDup_ForallPairs; [|now apply NoDup_filter].
  intros t t' Ht Ht' E. apply filter_In in Ht, Ht'.
  apply toString_prefix_unique with (r1 := ""%string) (r2 := ""%string);
    try reflexivity; try (apply Hf; tauto).
  now rewrite !append_empty.
Qed.

Lemma findExpressions_no_repeat_witness : NoDup ["(1*1)"%string; "(1/1)"%string].
Proof.
  apply (findExpressions_no_repeat [1; 1] 1).
  vm_compute. reflexivity.
Defined.

(** ** The enumerator reads its range only *)

Lemma slice_split_eq nums nums' start start' end_ end_' k :
  valid_range nums start end_ ->
  valid_range nums' start' end_' ->
  slice nums start end_ = slice nums' start' end_' ->
  0 <= k < end_ - start ->
  end_ - start = end_' - start'
  /\ slice nums start (start + k) = slice nums' start' (start' + k)
  /\ slice nums (start + k + 1) end_ = slice nums' (start' + k + 1) end_'.
Proof.
  intros Hv Hv' E Hk.
  assert (L : end_ - start = end_' - start').
  { pose proof (slice_length _ _ _ Hv) as L. rewrite E in L.
    rewrite (slice_length _ _ _ Hv') in L.
    unfold valid_range in Hv, Hv'. lia. }
  split; [exact L|].
  destruct Hv as (H0 & Hle & Hlen), Hv' as (H0' & Hle' & Hlen').
  rewrite (slice_split nums start (start + k) end_) in E by lia.
  rewrite (slice_split nums' start' (start' + k) end_') in E by lia.
  apply app_eq_by_length in E; [exact E|].
  rewrite !slice_length by (unfold valid_range; lia). lia.
Qed.

Lemma enumeration_order_shift gen start end_ :
  enumeration_order gen start end_
  = concat (map (fun k => per_pair (trees_of (gen start (start + Z.of_nat k)))
                            (trees_of (gen (start + Z.of_nat k + 1) end_)))
                (seq 0 (Z.to_nat (end_ - start)))).
Proof.
  unfold enumeration_order, splits.
  now rewrite flat_map_concat_map, map_map.
Qed.

Lemma enumerator_local nums nums' :
  forall n start end_ start' end_',
    Z.to_nat (end_ - start) = n ->
    valid_range nums start end_ ->
    valid_range nums' start' end_' ->
    slice nums start end_ = slice nums' start' end_' ->
    generateExpressions nums start end_ = generateExpressions nums' start' end_'.
Proof.
  induction n as [n IH] using lt_wf_ind.
  intros start end_ start' end_' Hn Hv Hv' E.
  destruct (Z.eq_dec start end_) as [<-|Hne].
  - assert (start' = end_') as <-.
    { pose proof (slice_length _ _ _ Hv) as L. rewrite E in L.
      rewrite (slice_length _ _ _ Hv') in L.
      unfold valid_range in Hv, Hv'. lia. }
    rewrite !generateExpressions_base by assumption.
    rewrite !slice_single in E by assumption. injection E as E. now rewrite E.
  - assert (Hlt : start < end_) by (unfold valid_range in Hv; lia).
    destruct (slice_split_eq _ _ _ _ _ _ 0 Hv Hv' E ltac:(lia)) as [L _].
    rewrite !generateExpressions_step by (assumption || lia).
    rewrite !enumeration_order_shift. f_equal. f_equal.
    replace (Z.to_nat (end_' - start')) with (Z.to_nat (end_ - start)) by lia.
    apply map_ext_in. intros k Hk. apply in_seq in Hk.
    destruct (slice_split_eq _ _ _ _ _ _ (Z.of_nat k) Hv Hv' E ltac:(lia))
      as (_ & El & Er).
    unfold valid_range in Hv, Hv'.
    rewrite (IH (Z.to_nat (start + Z.of_nat k - start)) ltac:(lia)
               start (start + Z.of_nat k) start' (start' + Z.of_nat k) eq_refl)
      by (unfold valid_range; lia || exact El).
    rewrite (IH (Z.to_nat (end_ - (start + Z.of_nat k + 1))) ltac:(lia)
               (start + Z.of_nat k + 1) end_ (start' + Z.of_nat k + 1) end_' eq_refl)
      by (unfold valid_range; lia || exact Er).
    reflexivity.
Qed.

(** X7.  The trees of a range depend on the elements of the range only:
    two valid ranges, of the same or of different sequences, that hold the
    same elements give the same collection of trees, whatever lies outside
    them and wherever they start. *)
Theorem generateExpressions_local
    (nums nums' : list Z) (start end_ start' end_' : Z) :
  valid_range nums start end_ ->
  valid_range nums' start' end_' ->
  slice nums start end_ = slice nums' start' end_' ->
  generateExpressions nums start end_ = generateExpressions nums' start' end_'.
Proof. now apply (enumerator_local nums nums' (Z.to_nat (end_ - start))). Qed.

Lemma generateExpressions_local_witness :
  generateExpressions [9; 2; 3; 9] 1 2 = generateExpressions [2; 3] 0 1.
Proof.
  apply generateExpressions_local;
    [unfold valid_range; simpl; lia | unfold valid_range; simpl; lia | reflexivity].
Defined.

(** ** How many trees *)

Lemma catalan_fuel_S fuel m :
  catalan_fuel (S fuel) (S m)
  = list_sum (map (fun j => (catalan_fuel fuel j * catalan_fuel fuel (m - j))%nat)
                  (seq 0 (S m))).
Proof. reflexivity. Qed.

Lemma catalan_fuel_irrelevant :
  forall fuel1 fuel2 n,
    (n < fuel1)%nat -> (n < fuel2)%nat ->
    catalan_fuel fuel1 n = catalan_fuel fuel2 n.
Proof.
  induction fuel1 as [|fuel1 IH]; intros fuel2 n H1 H2; [lia|].
  destruct fuel2 as [|fuel2]; [lia|]. destruct n as [|m]; [reflexivity|].
  rewrite !catalan_fuel_S. f_equal. apply map_ext_in. intros j Hj. apply in_seq in Hj.
  rewrite (IH fuel2 j), (IH fuel2 (m - j)%nat) by lia. reflexivity.
Qed.

Lemma catalan_S m :
  catalan (S m)
  = list_sum (map (fun j => (catalan j * catalan (m - j))%nat) (seq 0 (S m))).
Proof.
  unfold catalan at 1. rewrite catalan_fuel_S. f_equal.
  apply map_ext_in. intros j Hj. apply in_seq in Hj. unfold catalan.
  rewrite (catalan_fuel_irrelevant (S m) (S j) j),
    (catalan_fuel_irrelevant (S m) (S (m - j)) (m - j)) by lia.
  reflexivity.
Qed.

Example catalan_first :
  map catalan (seq 0 7) = [1; 1; 2; 5; 14; 42; 132]%nat.
Proof. vm_compute. reflexivity. Qed.

Lemma list_sum_scale {A : Type} (f : A -> nat) (c : nat) (l : list A) :
  list_sum (map (fun x => (f x * c)%nat) l) = (list_sum (map f l) * c)%nat.
Proof. induction l as [|x l IH]; simpl; [reflexivity | rewrite IH; lia]. Qed.

Lemma count_base nums start :
  valid_range nums start start -> count nums start start = 1%nat.
Proof. intros H. unfold count. now rewrite generateExpressions_base. Qed.

Lemma count_step nums start end_ :
  valid_range nums start end_ -> start < end_ ->
  count nums start end_
  = list_sum
      (map (fun k => (count nums start (start + Z.of_nat k)
                      * count nums (start + Z.of_nat k + 1) end_ * 4)%nat)
           (seq 0 (Z.to_nat (end_ - start)))).
Proof.
  intros Hv Hlt. unfold count at 1.
  rewrite generateExpressions_step by assumption. simpl.
  rewrite enumeration_order_shift, length_concat, map_map. f_equal.
  apply map_ext. intros k. apply per_pair_length.
Qed.

Lemma count_catalan nums :
  forall n start end_,
    Z.to_nat (end_ - start) = n ->
    valid_range nums start end_ ->
    count nums start end_ = (catalan n * 4 ^ n)%nat.
Proof.
  induction n as [n IH] using lt_wf_ind. intros start end_ Hn Hv.
  destruct (Z.eq_dec start end_) as [<-|Hne].
  - rewrite count_base by assumption.
    replace n with 0%nat by lia. reflexivity.
  - destruct Hv as (H0 & Hle & Hlen).
    rewrite count_step by (unfold valid_range; lia).
    destruct n as [|m]; [lia|]. rewrite Hn, catalan_S.
    rewrite <- list_sum_scale. f_equal.
    apply map_ext_in. intros k Hk. apply in_seq in Hk.
    rewrite (IH k) by (unfold valid_range; lia).
    rewrite (IH (m - k)%nat) by (unfold valid_range; lia).
    replace (S m) with (k + (m - k) + 1)%nat at 1 by lia.
    rewrite !Nat.pow_add_r. simpl. lia.
Qed.

(** X8.  The number of trees the enumerator returns for a valid range of
    [k + 1] elements is [catalan k * 4^k] (the shapes of a binary tree with
    [k] operator nodes, times four operators per node): 1, 4, 32, 320, ...
    It depends neither on the values nor on where the range starts. *)
Theorem count_closed_form (nums : list Z) (start end_ : Z) :
  valid_range nums start end_ ->
  count nums start end_
  = (catalan (Z.to_nat (end_ - start)) * 4 ^ Z.to_nat (end_ - start))%nat.
Proof. intros Hv. now apply count_catalan. Qed.

Lemma count_closed_form_witness :
  count [7; 7; 7; 7] 0 3 = (catalan (Z.to_nat (3 - 0)) * 4 ^ Z.to_nat (3 - 0))%nat.
Proof.
  apply (count_closed_form [7; 7; 7; 7] 0 3). unfold valid_range. simpl. lia.
Defined.

Example count_four : count [7; 7; 7; 7] 0 3 = 320%nat.
Proof. vm_compute. reflexivity. Qed.

(** ** The filtering overload and its [result] argument *)

(** X9.  The filtering overload only appends to [result]: what the vector
    held before the call is kept as a prefix, followed by what the call
    would have put into an empty vector; and when the enumerator fails, the
    overload fails the same way whatever [result] held. *)
Theorem filtering_overload_appends
    (nums : list Z) (start end_ target : Z) (result : list string) :
  match generateExpressions_target nums start end_ target [] with
  | Ok added =>
      generateExpressions_target nums start end_ target result
      = Ok (result ++ added)
  | Fail f => generateExpressions_target nums start end_ target result = Fail f
  end.
Proof.
  unfold generateExpressions_target.
  destruct (generateExpressions nums start end_) as [l|f]; cbn [bind];
    [|reflexivity].
  pose proof (for_expression_append target l result) as A.
  destruct (for_expression l target []); exact A.
Qed.

(** ** Evaluation and the integers *)

Lemma fits_some z v : fits z = Some v -> v = z /\ Int.in_range z.
Proof.
  unfold fits, Int.in_range. intros H.
  destruct (Z.leb_spec Int.INT_MIN z), (Z.leb_spec z Int.INT_MAX);
    simpl in H; try discriminate H.
  injection H as <-. lia.
Qed.

(** X10.  Wherever C++ defines the value of the expression (every literal
    and every intermediate result is an [int], no divisor is zero, every
    operator is one of [+ - * /]), [evaluate] returns that value: sum,
    difference and product of the integers, and the quotient truncated toward
    zero. *)
Theorem evaluate_exact (t : ASTNode) (v : Z) :
  exact_value t = Some v -> evaluate t = Ok v.
Proof.
  revert v. induction t as [value | oper l IHl r IHr]; intros v.
  - simpl. intros H. apply fits_some in H. destruct H as [-> _]. reflexivity.
  - rewrite evaluate_operator. cbn [exact_value].
    destruct (exact_value l) as [a|]; [|discriminate].
    destruct (exact_value r) as [b|]; [|discriminate].
    rewrite (IHl a eq_refl), (IHr b eq_refl). cbn [bind].
    unfold apply_operator.
    destruct (oper =? "+")%char;
      [| destruct (oper =? "-")%char;
         [| destruct (oper =? "*")%char;
            [| destruct (oper =? "/")%char; [|discriminate]]]].
    + intros H. apply fits_some in H. destruct H as [-> H].
      unfold Int.add. now rewrite wrap_id.
    + intros H. apply fits_some in H. destruct H as [-> H].
      unfold Int.sub. now rewrite wrap_id.
    + intros H. apply fits_some in H. destruct H as [-> H].
      unfold Int.mul. now rewrite wrap_id.
    + destruct (b =? 0); [discriminate|]. cbn [negb].
      intros H. apply fits_some in H. destruct H as [-> H].
      now rewrite div_in_range.
Qed.

Lemma evaluate_exact_witness :
  evaluate (OperatorNode "/"
              (OperatorNode "*" (OperatorNode "-" (NumberNode 2) (NumberNode 9))
                 (NumberNode 5))
              (NumberNode 2))
  = Ok (-17).
Proof. apply evaluate_exact. vm_compute. reflexivity. Defined.

(** ** The enumerator on the store *)

Lemma new_operators_eq l r acc h :
  new_operators l r (acc, h)
  = (acc ++ seq (length h) 4, h ++ operator_objects l r).
Proof.
  unfold new_operators, operator_objects, OPERATORS, new, push_back. simpl.
  rewrite !length_app. simpl.
  rewrite <- !app_assoc. simpl.
  repeat f_equal; lia.
Qed.

Lemma seq_app_length (n a b : nat) : seq n a ++ seq (n + a) b = seq n (a + b).
Proof. symmetry. apply seq_app. Qed.

Lemma new_right_eq l rights :
  forall acc h,
    new_right l rights (acc, h)
    = (acc ++ seq (length h) (length (flat_map (operator_objects l) rights)),
       h ++ flat_map (operator_objects l) rights).
Proof.
  unfold new_right.
  induction rights as [|r rights IH]; intros acc h; simpl.
  - now rewrite !app_nil_r.
  - rewrite new_operators_eq, IH.
    rewrite <- !app_assoc, !length_app. f_equal.
    f_equal. replace (length (operator_objects l r)) with 4%nat by reflexivity.
    apply seq_app_length.
Qed.

Lemma new_left_eq lefts rights :
  forall acc h,
    new_left lefts rights (acc, h)
    = (acc ++ seq (length h) (length (pair_objects lefts rights)),
       h ++ pair_objects lefts rights).
Proof.
  unfold new_left, pair_objects.
  induction lefts as [|l lefts IH]; intros acc h; simpl.
  - now rewrite !app_nil_r.
  - rewrite new_right_eq, IH.
    rewrite <- !app_assoc, !length_app. f_equal.
    f_equal. apply seq_app_length.
Qed.

(** [shaped] looks at the store between [lo] and [p] only, and a store that
    grows at its end keeps its shapes. *)
Lemma shaped_bounds h t : forall lo hi p, shaped h lo hi p t -> (lo <= p < hi)%nat.
Proof.
  induction t as [v | oper tl IHl tr IHr]; intros lo hi p; simpl.
  - tauto.
  - intros (l & r & mid & _ & H1 & H2 & _). lia.
Qed.

Lemma shaped_widen h t :
  forall lo hi lo' hi' p,
    shaped h lo hi p t -> (lo' <= lo)%nat -> (hi <= hi')%nat ->
    shaped h lo' hi' p t.
Proof.
  induction t as [v | oper tl IHl tr IHr]; intros lo hi lo' hi' p; simpl.
  - intros [H1 H2] Hlo Hhi. split; [lia | assumption].
  - intros (l & r & mid & Hp & H1 & H2 & Hl & Hr) Hlo Hhi.
    exists l, r, mid. repeat split; try assumption; try lia.
    apply (IHl lo mid); [assumption | lia | lia].
Qed.

Lemma shaped_same h h' t :
  forall lo hi p,
    shaped h lo hi p t ->
    (forall q, (lo <= q <= p)%nat -> nth_error h' q = nth_error h q) ->
    shaped h' lo hi p t.
Proof.
  induction t as [v | oper tl IHl tr IHr]; intros lo hi p; simpl.
  - intros [H1 H2] Hq. split; [assumption|]. rewrite Hq by lia. assumption.
  - intros (l & r & mid & Hp & H1 & H2 & Hl & Hr) Hq.
    pose proof (shaped_bounds _ _ _ _ _ Hl) as Bl.
    pose proof (shaped_bounds _ _ _ _ _ Hr) as Br.
    exists l, r, mid. repeat split; try assumption; try lia.
    + rewrite Hq by lia. assumption.
    + apply IHl; [assumption|]. intros q Hq'. apply Hq. lia.
    + apply IHr; [assumption|]. intros q Hq'. apply Hq. lia.
Qed.

Lemma shaped_in_store h t lo hi p : shaped h lo hi p t -> (p < length h)%nat.
Proof.
  intros H. apply nth_error_Some.
  destruct t; simpl in H.
  - destruct H as [_ ->]. discriminate.
  - destruct H as (l & r & mid & -> & _). discriminate.
Qed.

Lemma shaped_grow h objs t lo hi p :
  shaped h lo hi p t -> shaped (h ++ objs) lo hi p t.
Proof.
  intros H. apply (shaped_same h); [assumption|].
  intros q Hq. pose proof (shaped_in_store _ _ _ _ _ H).
  apply nth_error_app1. lia.
Qed.

Lemma Forall2_shaped_grow h objs lo hi lo' hi' ptrs ts :
  Forall2 (shaped h lo hi) ptrs ts ->
  (lo' <= lo)%nat -> (hi <= hi')%nat ->
  Forall2 (shaped (h ++ objs) lo' hi') ptrs ts.
Proof.
  intros H Hlo Hhi. eapply Forall2_impl; [|exact H].
  intros p t Hs. apply shaped_grow. now apply (shaped_widen h t lo hi).
Qed.

Lemma builds_operators h base a b c l r tl tr :
  (base <= a)%nat -> (c <= length h)%nat ->
  shaped h a b l tl -> shaped h b c r tr ->
  Forall2 (builds h base) (operator_objects l r) (per_operator tl tr).
Proof.
  intros Ha Hc Hl Hr. unfold operator_objects, per_operator, OPERATORS. simpl.
  repeat (constructor;
          [eexists _, l, r, tl, tr, a, b, c; repeat split;
           (reflexivity || eassumption) |]).
  constructor.
Qed.

Lemma builds_pairs h base a b c lp lefts rp rights :
  (base <= a)%nat -> (c <= length h)%nat ->
  Forall2 (shaped h a b) lp lefts ->
  Forall2 (shaped h b c) rp rights ->
  Forall2 (builds h base) (pair_objects lp rp) (per_pair lefts rights).
Proof.
  intros Ha Hc Hl Hr. unfold pair_objects, per_pair.
  induction Hl as [|l tl lp lefts Hl _ IHl]; cbn [flat_map]; [constructor|].
  apply Forall2_app; [|exact IHl].
  clear IHl. induction Hr as [|r tr rp rights Hr _ IHr]; cbn [flat_map];
    [constructor|].
  apply Forall2_app; [|exact IHr].
  now apply (builds_operators h base a b c).
Qed.

Lemma builds_shaped h base objs ts :
  Forall2 (builds h base) objs ts ->
  forall pre,
    Forall2 (shaped (h ++ pre ++ objs) base
               (length h + length pre + length objs))
            (seq (length h + length pre) (length objs)) ts.
Proof.
  induction 1 as [|o t objs ts Ho _ IH]; intros pre; simpl; [constructor|].
  constructor.
  - destruct Ho as (oper & l & r & tl & tr & a & b & c
                    & -> & -> & Ha & Hc & Hl & Hr).
    pose proof (shaped_bounds _ _ _ _ _ Hl) as Bl.
    pose proof (shaped_bounds _ _ _ _ _ Hr) as Br.
    simpl. exists l, r, b. repeat split; try lia.
    + rewrite app_assoc, nth_error_app2 by (rewrite length_app; lia).
      rewrite length_app.
      replace (length h + length pre - (length h + length pre))%nat
        with 0%nat by lia.
      reflexivity.
    + apply shaped_grow. apply (shaped_widen h tl a b); [assumption | lia | lia].
    + apply shaped_grow. apply (shaped_widen h tr b c); [assumption | lia | lia].
  - specialize (IH (pre ++ [o])).
    rewrite <- app_assoc, length_app in IH. simpl in IH.
    replace (length h + (length pre + 1) + length objs)%nat
      with (length h + length pre + S (length objs))%nat in IH by lia.
    replace (length h + (length pre + 1))%nat
      with (S (length h + length pre)) in IH by lia.
    exact IH.
Qed.

(** The loop over the split index, on the store and on trees. *)
Lemma store_split_refines gens genp start end_ trips :
  forall i acc_ptrs acc h base,
    (forall j h', In j (splits i trips) ->
       refines h' (genp start j) (gens start j h')
       /\ refines h' (genp (j + 1) end_) (gens (j + 1) end_ h')) ->
    (base <= length h)%nat ->
    Forall2 (shaped h base (length h)) acc_ptrs acc ->
    match for_split genp start end_ i trips acc with
    | Ok ts =>
        exists ps objs,
          store_split gens start end_ i trips (acc_ptrs, h)
          = Ok (acc_ptrs ++ ps, h ++ objs)
          /\ Forall2 (shaped (h ++ objs) base (length h + length objs))
                     (acc_ptrs ++ ps) ts
    | Fail f => store_split gens start end_ i trips (acc_ptrs, h) = Fail f
    end.
Proof.
  induction trips as [|trips IH]; intros i acc_ptrs acc h base Hgen Hb Hacc.
  - simpl. exists [], []. rewrite !app_nil_r, Nat.add_0_r. split; [reflexivity|].
    exact Hacc.
  - rewrite splits_S in Hgen. simpl.
    destruct (Hgen i h (or_introl eq_refl)) as [Hl _].
    unfold refines in Hl.
    destruct (genp start i) as [lefts|f]; simpl; [|now rewrite Hl].
    destruct Hl as (lp & o1 & -> & Hlp). simpl.
    destruct (Hgen i (h ++ o1) (or_introl eq_refl)) as [_ Hr].
    unfold refines in Hr.
    destruct (genp (i + 1) end_) as [rights|f]; simpl; [|now rewrite Hr].
    destruct Hr as (rp & o2 & -> & Hrp). simpl.
    rewrite new_left_eq, for_left_app.
    set (h2 := (h ++ o1) ++ o2) in *.
    set (o3 := pair_objects lp rp).
    assert (Hacc' : Forall2 (shaped (h2 ++ o3) base (length (h2 ++ o3)))
                      (acc_ptrs ++ seq (length h2) (length o3))
                      (acc ++ per_pair lefts rights)).
    { apply Forall2_app.
      - unfold h2. rewrite <- !app_assoc.
        apply Forall2_shaped_grow with (lo := base) (hi := length h);
          [assumption | lia | rewrite !length_app; lia].
      - pose proof (builds_shaped h2 base o3 (per_pair lefts rights)) as B.
        specialize (B (builds_pairs h2 base (length h) (length (h ++ o1))
                         (length h2) lp lefts rp rights Hb (Nat.le_refl _)
                         ltac:(unfold h2; apply Forall2_shaped_grow
                                 with (lo := length h) (hi := (length h + length o1)%nat);
                               [assumption | lia | rewrite length_app; lia])
                         ltac:(unfold h2; rewrite (length_app (h ++ o1) o2);
                               exact Hrp))
                      []).
        simpl in B. rewrite Nat.add_0_r in B. rewrite length_app. exact B. }
    specialize (IH (i + 1) (acc_ptrs ++ seq (length h2) (length o3))
                  (acc ++ per_pair lefts rights) (h2 ++ o3) base).
    assert (Hgen' : forall j h', In j (splits (i + 1) trips) ->
              refines h' (genp start j) (gens start j h')
              /\ refines h' (genp (j + 1) end_) (gens (j + 1) end_ h')).
    { intros j h' Hj. apply Hgen. now right. }
    specialize (IH Hgen' ltac:(unfold h2; rewrite !length_app; lia) Hacc').
    destruct (for_split genp start end_ (i + 1) trips
                (acc ++ per_pair lefts rights)) as [ts|f]; [|exact IH].
    destruct IH as (ps & objs & E & Hts).
    exists (seq (length h2) (length o3) ++ ps), (o1 ++ o2 ++ o3 ++ objs).
    split.
    + rewrite E. unfold h2. rewrite <- !app_assoc. reflexivity.
    + assert (Es : (h2 ++ o3) ++ objs = h ++ o1 ++ o2 ++ o3 ++ objs)
        by (unfold h2; now rewrite <- !app_assoc).
      assert (El : (length (h2 ++ o3) + length objs
                    = length h + length (o1 ++ o2 ++ o3 ++ objs))%nat)
        by (unfold h2; rewrite !length_app; lia).
      rewrite Es, El, <- app_assoc in Hts. exact Hts.
Qed.

Lemma store_generate_refines nums :
  forall fuel start end_ h,
    (Z.to_nat (end_ - start) < fuel)%nat ->
    refines h (generateExpressions nums start end_)
            (store_generate_fuel fuel nums start end_ h).
Proof.
  induction fuel as [|fuel IH]; intros start end_ h Hf; [lia|].
  rewrite generateExpressions_eq. simpl.
  destruct (Z.eqb_spec start end_) as [->|Hne].
  - destruct (subscript nums end_) as [v|f]; simpl; [|reflexivity].
    exists [length h], [Some (NumberObject v)]. split; [reflexivity|].
    constructor; [|constructor]. simpl. split; [lia|].
    rewrite nth_error_app2, Nat.sub_diag by lia. reflexivity.
  - pose proof (store_split_refines (store_generate_fuel fuel nums)
                  (generateExpressions nums) start end_
                  (Z.to_nat (end_ - start)) start [] [] h (length h)) as R.
    assert (Hgen : forall j h', In j (splits start (Z.to_nat (end_ - start))) ->
              refines h' (generateExpressions nums start j)
                      (store_generate_fuel fuel nums start j h')
              /\ refines h' (generateExpressions nums (j + 1) end_)
                         (store_generate_fuel fuel nums (j + 1) end_ h')).
    { intros j h' Hj. apply in_splits in Hj. split; apply IH; lia. }
    specialize (R Hgen (Nat.le_refl _) (Forall2_nil _)).
    destruct (for_split (generateExpressions nums) start end_ start
                (Z.to_nat (end_ - start)) []) as [ts|f]; [|exact R].
    destruct R as (ps & objs & E & Hts). exists ps, objs. split; assumption.
Qed.

(** X11.  The enumerator on the store does what the enumerator on trees
    does, from any store: where the latter fails the former fails the same
    way; where it returns trees, the former returns as many pointers, each
    standing in the final store for the tree at its place, with the objects
    of a left subtree created before those of the right subtree and before
    the parent; the objects are added at the end of the store and no object
    that was there is changed or deleted. *)
Theorem generateExpressions_store_refines
    (nums : list Z) (start end_ : Z) (h : store) :
  match generateExpressions nums start end_ with
  | Ok ts =>
      exists ptrs objs,
        generateExpressions_store nums start end_ h = Ok (ptrs, h ++ objs)
        /\ Forall2 (shaped (h ++ objs) (length h) (length h + length objs)) ptrs ts
  | Fail f => generateExpressions_store nums start end_ h = Fail f
  end.
Proof.
  apply (store_generate_refines nums (S (Z.to_nat (end_ - start)))). lia.
Qed.

Example store_two :
  generateExpressions_store [5; 0] 0 1 []
  = Ok ([2; 3; 4; 5]%nat,
        [Some (NumberObject 5); Some (NumberObject 0);
         Some (OperatorObject "+" 0%nat 1%nat); Some (OperatorObject "-" 0%nat 1%nat);
         Some (OperatorObject "*" 0%nat 1%nat); Some (OperatorObject "/" 0%nat 1%nat)]).
Proof. vm_compute. reflexivity. Qed.

(** ** Children are shared *)

Lemma store_generate_fuel_S fuel nums start end_ h :
  store_generate_fuel (S fuel) nums start end_ h
  = if start =? end_ then
      value <- subscript nums start ;;
      let (p, h') := new (NumberObject value) h in
      Ok (push_back [] p, h')
    else
      store_split (store_generate_fuel fuel nums) start end_
                  start (Z.to_nat (end_ - start)) ([], h).
Proof. reflexivity. Qed.

Lemma store_split_S gens start end_ i trips acc h :
  store_split gens start end_ i (S trips) (acc, h)
  = (l <- gens start i h ;;
     r <- gens (i + 1) end_ (snd l) ;;
     store_split gens start end_ (i + 1) trips
                 (new_left (fst l) (fst r) (acc, snd r))).
Proof. reflexivity. Qed.

Lemma pair_objects_alive lp rp : Forall alive (pair_objects lp rp).
Proof.
  unfold pair_objects. apply Forall_flat_map, Forall_forall. intros l _.
  apply Forall_flat_map, Forall_forall. intros r _.
  unfold operator_objects. apply Forall_map, Forall_forall. intros o _.
  discriminate.
Qed.

(** The calls only add objects, at the end of the store. *)
Lemma store_split_appends gens start end_ trips :
  forall i acc h ptrs h',
    (forall a b h1 ps h2,
       gens a b h1 = Ok (ps, h2) ->
       exists objs, h2 = h1 ++ objs /\ Forall alive objs) ->
    store_split gens start end_ i trips (acc, h) = Ok (ptrs, h') ->
    exists ps objs, ptrs = acc ++ ps /\ h' = h ++ objs /\ Forall alive objs.
Proof.
  induction trips as [|trips IH]; intros i acc h ptrs h' Hgen E.
  - simpl in E. injection E as <- <-. exists [], [].
    rewrite !app_nil_r. auto.
  - rewrite store_split_S in E.
    destruct (gens start i h) as [[lp h1]|f] eqn:El; simpl in E; [|discriminate E].
    destruct (gens (i + 1) end_ h1) as [[rp h2]|f] eqn:Er; simpl in E;
      [|discriminate E].
    destruct (Hgen _ _ _ _ _ El) as (o1 & -> & A1).
    destruct (Hgen _ _ _ _ _ Er) as (o2 & -> & A2).
    rewrite new_left_eq in E.
    apply IH in E; [|exact Hgen].
    destruct E as (ps & objs & -> & -> & A).
    eexists _, (o1 ++ o2 ++ pair_objects lp rp ++ objs).
    rewrite <- !app_assoc. split; [reflexivity|]. split; [reflexivity|].
    repeat (apply Forall_app; split); auto using pair_objects_alive.
Qed.

Lemma store_generate_appends nums :
  forall fuel start end_ h ptrs h',
    store_generate_fuel fuel nums start end_ h = Ok (ptrs, h') ->
    exists objs, h' = h ++ objs /\ Forall alive objs.
Proof.
  induction fuel as [|fuel IH]; intros start end_ h ptrs h' E; [discriminate E|].
  rewrite store_generate_fuel_S in E.
  destruct (start =? end_).
  - destruct (subscript nums start) as [v|f]; simpl in E; [|discriminate E].
    injection E as _ <-. eexists. split; [reflexivity|].
    constructor; [discriminate | constructor].
  - apply store_split_appends in E; [|exact IH].
    destruct E as (ps & objs & _ & -> & A). eauto.
Qed.

Lemma enumerator_inhabited nums :
  forall n start end_,
    Z.to_nat (end_ - start) = n ->
    valid_range nums start end_ ->
    exists t, In t (trees_of (generateExpressions nums start end_)).
Proof.
  induction n as [n IH] using lt_wf_ind. intros start end_ Hn Hv.
  destruct (Z.eq_dec start end_) as [<-|Hne].
  - rewrite generateExpressions_base by assumption. eexists. now left.
  - destruct Hv as (H0 & Hle & Hlen).
    rewrite generateExpressions_step by (unfold valid_range; lia).
    destruct (IH 0%nat ltac:(lia) start start ltac:(lia)
                ltac:(unfold valid_range; lia)) as [tl Hl].
    destruct (IH (Z.to_nat (end_ - (start + 1))) ltac:(lia) (start + 1) end_
                eq_refl ltac:(unfold valid_range; lia)) as [tr Hr].
    exists (OperatorNode "+" tl tr). apply in_enumeration_order.
    exists start, "+"%char, tl, tr.
    repeat split; try assumption; try lia. now left.
Qed.

Lemma first_two_pointers
    (nums : list Z) (start end_ : Z) (h : store) (ptrs : list ptr) (h' : store) :
  valid_range nums start end_ ->
  start < end_ ->
  generateExpressions_store nums start end_ h = Ok (ptrs, h') ->
  exists p l r rest,
    ptrs = p :: S p :: rest
    /\ nth_error h' p = Some (Some (OperatorObject "+" l r))
    /\ nth_error h' (S p) = Some (Some (OperatorObject "-" l r)).
Proof.
  intros (H0 & Hle & Hlen) Hlt E.
  unfold generateExpressions_store in E. rewrite store_generate_fuel_S in E.
  destruct (Z.eqb_spec start end_) as [|_]; [lia|].
  set (k := Z.to_nat (end_ - start)) in E at 1.
  destruct (Z.to_nat (end_ - start)) as [|m] eqn:Hn; [lia|].
  rewrite store_split_S in E.
  (* the left call, on the single element [start] *)
  pose proof (store_generate_refines nums k start start h ltac:(lia)) as Rl.
  unfold refines in Rl.
  rewrite generateExpressions_base in Rl by (unfold valid_range; lia).
  destruct Rl as (lp & o1 & El & Fl). rewrite El in E. cbn [bind fst snd] in E.
  inversion Fl as [|l0 tl0 lp' ts' _ Fl' ]; subst. inversion Fl'; subst.
  (* the right call, on the rest of the range *)
  pose proof (store_generate_refines nums k (start + 1) end_ (h ++ o1)
                ltac:(lia)) as Rr.
  unfold refines in Rr.
  destruct (enumerator_inhabited nums _ (start + 1) end_ eq_refl
              ltac:(unfold valid_range; lia)) as [tr0 Hr0].
  destruct (generateExpressions nums (start + 1) end_) as [rights|f];
    [|destruct Hr0].
  destruct Rr as (rp & o2 & Er & Fr). rewrite Er in E. cbn [bind fst snd] in E.
  destruct Fr as [|r0 tr rp' rights' _ _]; [destruct Hr0|].
  rewrite new_left_eq in E.
  apply store_split_appends in E; [|apply store_generate_appends].
  destruct E as (ps & objs & -> & -> & _).
  set (h2 := (h ++ o1) ++ o2).
  exists (length h2), l0, r0. eexists.
  split; [cbn; reflexivity|].
  split.
  - rewrite <- app_assoc, nth_error_app2, Nat.sub_diag by lia. reflexivity.
  - rewrite <- app_assoc, nth_error_app2 by lia.
    replace (S (length h2) - length h2)%nat with 1%nat by lia. reflexivity.
Qed.

(** X12.  Children are shared between parents.  On a valid range of two
    elements or more, the first two pointers the enumerator returns are two
    different objects, a ['+'] node and a ['-'] node, that hold the same left
    child pointer and the same right child pointer. *)
Theorem children_are_shared
    (nums : list Z) (start end_ : Z) (h : store) (ptrs : list ptr) (h' : store) :
  valid_range nums start end_ ->
  start < end_ ->
  generateExpressions_store nums start end_ h = Ok (ptrs, h') ->
  exists p l r rest,
    ptrs = p :: S p :: rest
    /\ p <> S p
    /\ nth_error h' p = Some (Some (OperatorObject "+" l r))
    /\ nth_error h' (S p) = Some (Some (OperatorObject "-" l r)).
Proof.
  intros Hv Hlt E.
  destruct (first_two_pointers nums start end_ h ptrs h' Hv Hlt E)
    as (p & l & r & rest & Hp & H1 & H2).
  exists p, l, r, rest. repeat split; try assumption. lia.
Qed.

Lemma children_are_shared_witness :
  exists p l r rest,
    [2; 3; 4; 5]%nat = p :: S p :: rest
    /\ p <> S p
    /\ nth_error
         [Some (NumberObject 5); Some (NumberObject 0);
          Some (OperatorObject "+" 0%nat 1%nat); Some (OperatorObject "-" 0%nat 1%nat);
          Some (OperatorObject "*" 0%nat 1%nat); Some (OperatorObject "/" 0%nat 1%nat)] p
       = Some (Some (OperatorObject "+" l r))
    /\ nth_error
         [Some (NumberObject 5); Some (NumberObject 0);
          Some (OperatorObject "+" 0%nat 1%nat); Some (OperatorObject "-" 0%nat 1%nat);
          Some (OperatorObject "*" 0%nat 1%nat); Some (OperatorObject "/" 0%nat 1%nat)] (S p)
       = Some (Some (OperatorObject "-" l r)).
Proof.
  apply (children_are_shared [5; 0] 0 1 []);
    [unfold valid_range; simpl; lia | lia | vm_compute; reflexivity].
Defined.

(** ** The destructor *)

Lemma release_cons p x h : release (S p) (x :: h) = x :: release p h.
Proof. reflexivity. Qed.

Lemma length_release h : forall p, (p < length h)%nat -> length (release p h) = length h.
Proof.
  induction h as [|x h IH]; intros p Hp; simpl in Hp; [lia|].
  destruct p as [|p]; [reflexivity|].
  rewrite release_cons. simpl. rewrite IH by lia. reflexivity.
Qed.

Lemma nth_error_release h :
  forall p q, (p < length h)%nat ->
    nth_error (release p h) q = if Nat.eqb q p then Some None else nth_error h q.
Proof.
  induction h as [|x h IH]; intros p q Hp; simpl in Hp; [lia|].
  destruct p as [|p].
  - destruct q as [|q]; reflexivity.
  - rewrite release_cons. destruct q as [|q]; [reflexivity|].
    simpl. apply IH. lia.
Qed.

Lemma live_release h :
  forall p o, nth_error h p = Some (Some o) -> S (live (release p h)) = live h.
Proof.
  unfold live. induction h as [|x h IH]; intros p o Hp.
  - destruct p; discriminate Hp.
  - destruct p as [|p].
    + simpl in Hp. injection Hp as ->. reflexivity.
    + rewrite release_cons. simpl in Hp. specialize (IH p o Hp).
      simpl. destruct x; simpl; lia.
Qed.

(** [delete] on a pointer that stands for a tree. *)
Lemma delete_shaped t :
  forall fuel h lo hi p,
    shaped h lo hi p t ->
    (p - lo < fuel)%nat ->
    exists h',
      delete_fuel fuel h p = Deleted h'
      /\ length h' = length h
      /\ (forall q, (q < lo \/ p < q)%nat -> nth_error h' q = nth_error h q)
      /\ (forall q, nth_error h' q = nth_error h q \/ nth_error h' q = Some None)
      /\ nth_error h' p = Some None
      /\ (forall oper l r,
            nth_error h p = Some (Some (OperatorObject oper l r)) ->
            nth_error h' l = Some None /\ nth_error h' r = Some None)
      /\ (live h' + nodes t)%nat = live h.
Proof.
  induction t as [v | oper tl IHl tr IHr]; intros fuel h lo hi p Hs Hf.
  - destruct Hs as [Hb Hp]. destruct fuel as [|fuel]; [lia|].
    assert (Hlen : (p < length h)%nat) by (apply nth_error_Some; congruence).
    exists (release p h). simpl. rewrite Hp.
    repeat split.
    + now apply length_release.
    + intros q Hq. rewrite nth_error_release by assumption.
      destruct (Nat.eqb_spec q p); [lia | reflexivity].
    + intros q. rewrite nth_error_release by assumption.
      destruct (Nat.eqb_spec q p); auto.
    + rewrite nth_error_release, Nat.eqb_refl by assumption. reflexivity.
    + congruence.
    + congruence.
    + pose proof (live_release h p _ Hp). lia.
  - destruct Hs as (l & r & mid & Hp & Hm & Hhi & Hl & Hr).
    destruct fuel as [|fuel]; [lia|].
    pose proof (shaped_bounds _ _ _ _ _ Hl) as Bl.
    pose proof (shaped_bounds _ _ _ _ _ Hr) as Br.
    assert (Hlen : (p < length h)%nat) by (apply nth_error_Some; congruence).
    destruct (IHl fuel h lo mid l Hl ltac:(lia))
      as (h1 & D1 & L1 & O1 & M1 & F1 & _ & V1).
    assert (Hr1 : shaped h1 mid p r tr).
    { apply (shaped_same h); [assumption|]. intros q Hq. apply O1. lia. }
    destruct (IHr fuel h1 mid p r Hr1 ltac:(lia))
      as (h2 & D2 & L2 & O2 & M2 & F2 & _ & V2).
    assert (Hp2 : nth_error h2 p = Some (Some (OperatorObject oper l r))).
    { rewrite O2, O1 by lia. assumption. }
    exists (release p h2). simpl. rewrite Hp, D1, D2.
    assert (Hlen2 : (p < length h2)%nat) by lia.
    repeat split.
    + rewrite length_release by assumption. lia.
    + intros q Hq. rewrite nth_error_release by assumption.
      destruct (Nat.eqb_spec q p); [lia|]. rewrite O2, O1 by lia. reflexivity.
    + intros q. rewrite nth_error_release by assumption.
      destruct (Nat.eqb_spec q p); [now right|].
      destruct (M2 q) as [-> | ->]; [apply M1 | now right].
    + rewrite nth_error_release, Nat.eqb_refl by assumption. reflexivity.
    + assert (l0 = l) as -> by congruence.
      rewrite nth_error_release by assumption.
      destruct (Nat.eqb_spec l p); [lia|].
      destruct (M2 l) as [-> | ->]; [exact F1 | reflexivity].
    + assert (r0 = r) as -> by congruence.
      rewrite nth_error_release by assumption.
      destruct (Nat.eqb_spec r p); [lia | exact F2].
    + pose proof (live_release h2 p _ Hp2). simpl. lia.
Qed.

(** X13.  The destructor is right on a tree of its own.  When [p] stands
    for a tree whose objects are all in the store (each child created before
    its parent, the left subtree before the right one), [delete p] completes,
    deletes [p], deletes exactly as many objects as the tree has nodes, and
    leaves every object outside the positions of the tree as it was. *)
Theorem delete_tree (h : store) (lo hi : nat) (p : ptr) (t : ASTNode) :
  shaped h lo hi p t ->
  exists h',
    delete h p = Deleted h'
    /\ nth_error h' p = Some None
    /\ (forall q, (q < lo \/ p < q)%nat -> nth_error h' q = nth_error h q)
    /\ (live h' + nodes t)%nat = live h.
Proof.
  intros Hs. pose proof (shaped_in_store _ _ _ _ _ Hs) as Hlen.
  destruct (delete_shaped t (length h) h lo hi p Hs ltac:(lia))
    as (h' & D & _ & O & _ & F & _ & V).
  exists h'. repeat split; assumption.
Qed.

Lemma delete_tree_witness :
  exists h',
    delete [Some (NumberObject 5); Some (NumberObject 0);
            Some (OperatorObject "/" 0%nat 1%nat)] 2%nat = Deleted h'
    /\ nth_error h' 2%nat = Some None
    /\ (forall q, (q < 0 \/ 2 < q)%nat ->
          nth_error h' q
          = nth_error [Some (NumberObject 5); Some (NumberObject 0);
                       Some (OperatorObject "/" 0%nat 1%nat)] q)
    /\ (live h' + nodes (OperatorNode "/" (NumberNode 5) (NumberNode 0)))%nat
       = live [Some (NumberObject 5); Some (NumberObject 0);
               Some (OperatorObject "/" 0%nat 1%nat)].
Proof.
  apply (delete_tree _ 0%nat 3%nat 2%nat
           (OperatorNode "/" (NumberNode 5) (NumberNode 0))).
  simpl. exists 0%nat, 1%nat, 1%nat. repeat split; lia.
Defined.

(** X14.  The returned expressions cannot all be deleted.  On a valid range
    of two elements or more, [delete] of the first returned pointer
    completes, and [delete] of the second one then reaches an object that is
    already deleted: the left child, which the two expressions share. *)
Theorem second_delete_is_double
    (nums : list Z) (start end_ : Z) (h : store) (ptrs : list ptr) (h' : store) :
  valid_range nums start end_ ->
  start < end_ ->
  generateExpressions_store nums start end_ h = Ok (ptrs, h') ->
  exists p q rest h'' l r,
    ptrs = p :: q :: rest
    /\ nth_error h' p = Some (Some (OperatorObject "+" l r))
    /\ nth_error h' q = Some (Some (OperatorObject "-" l r))
    /\ delete h' p = Deleted h''
    /\ delete h'' q = DeletedTwice l.
Proof.
  intros Hv Hlt E.
  destruct (first_two_pointers nums start end_ h ptrs h' Hv Hlt E)
    as (p & l & r & rest & -> & Hp & Hq).
  pose proof (store_generate_refines nums (S (Z.to_nat (end_ - start)))
                start end_ h ltac:(lia)) as R.
  unfold refines in R.
  destruct (generateExpressions_returns nums start end_ Hv) as [ts Ets].
  rewrite Ets in R. destruct R as (ps & objs & E' & Hts).
  unfold generateExpressions_store in E. rewrite E' in E.
  injection E as -> <-.
  inversion Hts as [|p0 t0 ps' ts' Ht0 _]; subst.
  pose proof (shaped_in_store _ _ _ _ _ Ht0) as Hlen.
  destruct (delete_shaped t0 (length (h ++ objs)) (h ++ objs) _ _ p Ht0 ltac:(lia))
    as (h'' & D & L & O & _ & _ & C & _).
  destruct (C _ _ _ Hp) as [Fl _].
  exists p, (S p), rest, h'', l, r.
  repeat split; try assumption.
  unfold delete.
  assert (Hq' : nth_error h'' (S p) = Some (Some (OperatorObject "-" l r))).
  { rewrite O by lia. exact Hq. }
  assert (Hlen' : (S p < length h'')%nat) by (apply nth_error_Some; congruence).
  destruct (length h'') as [|[|fuel]]; [lia | lia |].
  cbn [delete_fuel]. rewrite Hq', Fl. reflexivity.
Qed.

Lemma second_delete_is_double_witness :
  exists p q rest h'' l r,
    [2; 3; 4; 5]%nat = p :: q :: rest
    /\ nth_error
         [Some (NumberObject 5); Some (NumberObject 0);
          Some (OperatorObject "+" 0%nat 1%nat); Some (OperatorObject "-" 0%nat 1%nat);
          Some (OperatorObject "*" 0%nat 1%nat); Some (OperatorObject "/" 0%nat 1%nat)] p
       = Some (Some (OperatorObject "+" l r))
    /\ nth_error
         [Some (NumberObject 5); Some (NumberObject 0);
          Some (OperatorObject "+" 0%nat 1%nat); Some (OperatorObject "-" 0%nat 1%nat);
          Some (OperatorObject "*" 0%nat 1%nat); Some (OperatorObject "/" 0%nat 1%nat)] q
       = Some (Some (OperatorObject "-" l r))
    /\ delete
         [Some (NumberObject 5); Some (NumberObject 0);
          Some (OperatorObject "+" 0%nat 1%nat); Some (OperatorObject "-" 0%nat 1%nat);
          Some (OperatorObject "*" 0%nat 1%nat); Some (OperatorObject "/" 0%nat 1%nat)] p
       = Deleted h''
    /\ delete h'' q = DeletedTwice l.
Proof.
  apply (second_delete_is_double [5; 0] 0 1 []);
    [unfold valid_range; simpl; lia | lia | vm_compute; reflexivity].
Defined.

Example delete_two :
  delete [Some (NumberObject 5); None; Some (OperatorObject "-" 0%nat 1%nat)] 2%nat
  = DeletedTwice 1%nat.
Proof. reflexivity. Qed.

(** ** The driver on the store *)

Lemma evaluate_at_shaped t :
  forall fuel h lo hi p,
    shaped h lo hi p t -> (p - lo < fuel)%nat ->
    evaluate_at fuel h p = Some (evaluate t).
Proof.
  induction t as [v | oper tl IHl tr IHr]; intros fuel h lo hi p Hs Hf;
    (destruct fuel as [|fuel]; [lia|]).
  - destruct Hs as [_ Hp]. simpl. now rewrite Hp.
  - destruct Hs as (l & r & mid & Hp & Hm & Hhi & Hl & Hr).
    pose proof (shaped_bounds _ _ _ _ _ Hl) as Bl.
    pose proof (shaped_bounds _ _ _ _ _ Hr) as Br.
    rewrite evaluate_operator. cbn [evaluate_at]. rewrite Hp.
    rewrite (IHl fuel h lo mid l Hl) by lia.
    destruct (evaluate tl) as [lv|f]; [|reflexivity].
    rewrite (IHr fuel h mid p r Hr) by lia.
    destruct (evaluate tr) as [rv|f]; reflexivity.
Qed.

Lemma toString_at_shaped t :
  forall fuel h lo hi p,
    shaped h lo hi p t -> (p - lo < fuel)%nat ->
    toString_at fuel h p = Some (toString t).
Proof.
  induction t as [v | oper tl IHl tr IHr]; intros fuel h lo hi p Hs Hf;
    (destruct fuel as [|fuel]; [lia|]).
  - destruct Hs as [_ Hp]. simpl. now rewrite Hp.
  - destruct Hs as (l & r & mid & Hp & Hm & Hhi & Hl & Hr).
    pose proof (shaped_bounds _ _ _ _ _ Hl) as Bl.
    pose proof (shaped_bounds _ _ _ _ _ Hr) as Br.
    cbn [toString_at toString]. rewrite Hp.
    rewrite (IHl fuel h lo mid l Hl), (IHr fuel h mid p r Hr) by lia.
    reflexivity.
Qed.

Lemma for_expression_store_eq h lo hi target ptrs ts :
  Forall2 (shaped h lo hi) ptrs ts ->
  forall result,
    for_expression_store ptrs target h result
    = Some (for_expression ts target result).
Proof.
  induction 1 as [|p t ptrs ts Hs _ IH]; intros result; [reflexivity|].
  pose proof (shaped_in_store _ _ _ _ _ Hs) as Hlen.
  cbn [for_expression_store for_expression].
  rewrite (evaluate_at_shaped t (length h) h lo hi p Hs) by lia.
  destruct (evaluate t) as [v|f]; [|reflexivity]. simpl.
  destruct (v =? target); [|apply IH].
  rewrite (toString_at_shaped t (length h) h lo hi p Hs) by lia.
  apply IH.
Qed.

(** X15.  [findExpressions] run on the store, with [evaluate] and
    [toString] called through the pointers, returns what [findExpressions] on
    trees returns (and fails where it fails), from any store; it never
    meets a pointer without an object.  At its return the store is the
    initial one followed by the objects it created, none of them deleted:
    the function deletes nothing. *)
Theorem findExpressions_store_agrees (nums : list Z) (target : Z) (h : store) :
  exists objs,
    Forall alive objs
    /\ findExpressions_store nums target h
       = Some (match findExpressions nums target with
               | Ok result => Ok (result, h ++ objs)
               | Fail f => Fail f
               end).
Proof.
  unfold findExpressions_store, findExpressions, generateExpressions_target,
    generateExpressions_store.
  pose proof (store_generate_refines nums (S (Z.to_nat (last_index nums - 0)))
                0 (last_index nums) h ltac:(lia)) as R.
  unfold refines in R.
  destruct (generateExpressions nums 0 (last_index nums)) as [ts|f];
    cbn [bind].
  - destruct R as (ptrs & objs & E & Hts). rewrite E.
    destruct (store_generate_appends nums _ _ _ _ _ _ E) as (objs' & Eo & A).
    apply app_inv_head in Eo. subst objs'.
    exists objs. split; [exact A|].
    rewrite (for_expression_store_eq _ _ _ target _ _ Hts).
    destruct (for_expression ts target []); reflexivity.
  - exists []. split; [constructor|]. now rewrite R.
Qed.

Example findExpressions_store_example :
  findExpressions_store [5; 0] 2147483647 []
  = Some (Ok (["(5/0)"%string],
              [Some (NumberObject 5); Some (NumberObject 0);
               Some (OperatorObject "+" 0%nat 1%nat);
               Some (OperatorObject "-" 0%nat 1%nat);
               Some (OperatorObject "*" 0%nat 1%nat);
               Some (OperatorObject "/" 0%nat 1%nat)])).
Proof. vm_compute. reflexivity. Qed.

(** ** [main] *)

(** [main] writes the one line [((2+3)*4)], returns 0 and leaves the 46
    objects it created in the store. *)
Example main_run :
  exists h,
    main = Some (Ok (("((2+3)*4)" ++ endl)%string, 0, h))
    /\ length h = 46%nat /\ live h = 46%nat.
Proof. eexists. split; [vm_compute; reflexivity | split; reflexivity]. Qed.
